(** * CrawlingCluster: graph traversal, batched dispatch, result
      classification and the bounded crawler

    A shallow embedding of [dags/parsing/util/search.py] and
    [dags/parsing/asnyc_protocol.py].  Python dictionaries are finite maps,
    Python sets are finite sets, Python lists and deques are lists, Python
    integers are [Z].  Lists that the Python code mutates in place
    ([discovered], the starting queue, the two module-level result queues)
    are threaded through the functions as explicit state. *)

From stdpp Require Import gmap strings list relations.

#[local] Set Warnings "-clear-no-such-hyp".

Local Open Scope string_scope.
Local Open Scope list_scope.
Local Open Scope Z_scope.

(** ** Python values and exceptions *)

(** The exceptions that occur: the built-in ones, and [aiohttp]'s
    [ClientError] for a request that fails in transport. *)
Inductive exn : Type :=
  | AttributeError (attr : string)
  | TypeError
  | ValueError
  | IndexError
  | ClientError (reason : string).

(** The values that flow through bundles and result lists: a [str], a
    [dict] with string keys and integer values, an [int], [None], or an
    exception object (what [asyncio.gather(..., return_exceptions=True)]
    puts in the list for a task that raised). *)
Inductive pyvalue : Type :=
  | PyStr (s : string)
  | PyDict (d : list (string * Z))
  | PyInt (z : Z)
  | PyNone
  | PyExc (e : exn).

(** A call either returns a value or raises. *)
Inductive outcome (A : Type) : Type :=
  | Returned (a : A)
  | Raised (e : exn).
Arguments Returned {A} a.
Arguments Raised {A} e.

#[global] Instance exn_eq_dec : EqDecision exn.
Proof. solve_decision. Defined.
#[global] Instance pyvalue_eq_dec : EqDecision pyvalue.
Proof. solve_decision. Defined.

(** [s.startswith(p)] *)
Definition startswith (p s : string) : bool := String.prefix p s.

(** ** [parsing/util/search.py] *)

Module Search.

(** *** Depth-first ordering *)

(** [graph.get(node, [])] *)
Definition children (graph : gmap Z (list Z)) (node : Z) : list Z :=
  default [] (graph !! node).

(** The [for n in graph.get(node, [])] loop of [recursive_dfs]; [rec] is the
    recursive call, [discovered] the list it appends to. *)
Fixpoint dfs_for (rec : Z → list Z → option (list Z))
    (ns : list Z) (discovered : list Z) : option (list Z) :=
  match ns with
  | [] => Some discovered
  | n :: ns' =>
      if decide (n ∈ discovered) then dfs_for rec ns' discovered
      else match rec n discovered with
           | Some discovered' => dfs_for rec ns' discovered'
           | None => None
           end
  end.

(** One activation of [recursive_dfs] with a list already allocated:
    [discovered.append(node)], then the loop.  [depth] bounds the number of
    nested activations; [None] means the bound was hit. *)
Fixpoint dfs_call (depth : nat) (graph : gmap Z (list Z))
    (node : Z) (discovered : list Z) : option (list Z) :=
  match depth with
  | O => None
  | S depth' =>
      dfs_for (dfs_call depth' graph) (children graph node) (discovered ++ [node])
  end.

(** Every identifier that occurs in some adjacency list. *)
Definition listed (graph : gmap Z (list Z)) : list Z :=
  mjoin (snd <$> map_to_list graph).

(** How many listed identifiers are not in [discovered]. *)
Definition undiscovered (graph : gmap Z (list Z)) (discovered : list Z) : nat :=
  size ((list_to_set (listed graph) : gset Z) ∖ list_to_set discovered).

(** [recursive_dfs(node, graph, discovered=None)].  An activation is only
    entered for a node that is not yet in [discovered], and every such node
    but the first occurs in an adjacency list, so the nesting never exceeds
    [length (listed graph) + 1]. *)
Definition recursive_dfs (node : Z) (graph : gmap Z (list Z))
    (discovered : option (list Z)) : option (list Z) :=
  dfs_call (S (length (listed graph))) graph node (default [] discovered).

(** The traversal as a relation, independent of any nesting bound:
    [dfs_loop graph ns d r] says that running the loop over [ns] with
    [discovered = d] ends with [discovered = r]. *)
Inductive dfs_loop (graph : gmap Z (list Z)) : list Z → list Z → list Z → Prop :=
  | dfs_loop_done d : dfs_loop graph [] d d
  | dfs_loop_skip n ns d r :
      n ∈ d → dfs_loop graph ns d r → dfs_loop graph (n :: ns) d r
  | dfs_loop_visit n ns d d' r :
      n ∉ d →
      dfs_loop graph (children graph n) (d ++ [n]) d' →
      dfs_loop graph ns d' r →
      dfs_loop graph (n :: ns) d r.

Definition edge (graph : gmap Z (list Z)) (a b : Z) : Prop := b ∈ children graph a.
Definition reachable (graph : gmap Z (list Z)) : Z → Z → Prop := rtc (edge graph).

(** The site graph unfolded into a tree below [node], in preorder, cut at
    [depth] levels. *)
Fixpoint tree_preorder (depth : nat) (graph : gmap Z (list Z)) (node : Z) : list Z :=
  match depth with
  | O => []
  | S depth' => node :: flat_map (tree_preorder depth' graph) (children graph node)
  end.

(** Append to [seen] the elements of [l] that are not in it yet, in order. *)
Definition absorb (seen l : list Z) : list Z :=
  foldl (λ acc x, if decide (x ∈ acc) then acc else acc ++ [x]) seen l.

Definition first_occurrences (l : list Z) : list Z := absorb [] l.

(** A numbering of the nodes that strictly decreases along every edge: the
    graph has no cycle. *)
Definition ranked (rank : Z → nat) (graph : gmap Z (list Z)) : Prop :=
  map_Forall (λ n cs, Forall (λ c, (rank c < rank n)%nat) cs) graph.

(** No node can be reached from itself along one or more edges. *)
Definition acyclic (graph : gmap Z (list Z)) : Prop :=
  ∀ n, ¬ tc (edge graph) n n.

(** Consecutive nodes of the list are joined by edges. *)
Fixpoint is_path (graph : gmap Z (list Z)) (l : list Z) : Prop :=
  match l with
  | x :: l' =>
      match l' with
      | y :: _ => edge graph x y ∧ is_path graph l'
      | [] => True
      end
  | [] => True
  end.

(** The number of nodes on a longest path from [node], counted up to
    [depth]. *)
Fixpoint height (depth : nat) (graph : gmap Z (list Z)) (node : Z) : nat :=
  match depth with
  | O => O
  | S depth' => S (max_list (height depth' graph <$> children graph node))
  end.

(** Two site graphs: one where two paths meet, one with a cycle. *)
Definition diamond : gmap Z (list Z) :=
  {[ 1 := [2; 3]; 2 := [4]; 3 := [4; 5] ]}.
Definition diamond_rank (n : Z) : nat := Z.to_nat (6 - n).
Definition triangle : gmap Z (list Z) :=
  {[ 1 := [2]; 2 := [3]; 3 := [1; 4] ]}.

(** *** Breadth-first bundle collection *)

(** The [while queue:] loop of [iterative_bfs].  [start] is the deque the
    function returns, [fuel] bounds the number of iterations. *)
Fixpoint bfs_while (fuel : nat) (graph : gmap Z (list pyvalue))
    (start : list (list pyvalue)) (visited : gset Z) (queue : list Z)
    : option (list (list pyvalue)) :=
  match queue with
  | [] => Some start
  | node :: queue' =>
      match fuel with
      | O => None
      | S fuel' =>
          match default [] (graph !! node) with
          | [] => bfs_while fuel' graph start visited queue'
          | (_ :: _) as bundle =>
              let start' := start ++ [bundle] in
              if decide (node ∈ visited)
              then bfs_while fuel' graph start' visited queue'
              else bfs_while fuel' graph start' ({[node]} ∪ visited) (queue' ++ [node])
          end
      end
  end.

(** [iterative_bfs(start_v, graph)] *)
Definition iterative_bfs (fuel : nat) (start_v : Z) (graph : gmap Z (list pyvalue))
    : option (list (list pyvalue)) :=
  bfs_while fuel graph [] {[start_v]} [start_v].

(** [deque.pop()]: the rightmost element and the rest, [IndexError] on an
    empty deque. *)
Definition deque_pop {A} (q : list A) : outcome (A * list A) :=
  match last q with
  | Some x => Returned (x, removelast q)
  | None => Raised IndexError
  end.

(** The expression [iterative_bfs(num, element).pop()] of
    [deep_dive_search]. *)
Definition bfs_last_bundle (fuel : nat) (num : Z) (element : gmap Z (list pyvalue))
    : option (outcome (list pyvalue)) :=
  match iterative_bfs fuel num element with
  | Some start =>
      Some match deque_pop start with
           | Returned (urls, _) => Returned urls
           | Raised e => Raised e
           end
  | None => None
  end.



(** Breadth-first collection as the specification words it: the nodes
    reachable from the start are explored in breadth-first order, a node
    leading to the keys named in its bundle; the bundle of every explored
    node that has one is appended to the accumulator. *)
Definition spec_neighbours (graph : gmap Z (list pyvalue)) (node : Z) : list Z :=
  omap (λ v, match v with PyInt n => Some n | _ => None end)
       (default [] (graph !! node)).

Definition spec_discover (seen : gset Z * list Z) (n : Z) : gset Z * list Z :=
  if decide (n ∈ seen.1) then seen else ({[n]} ∪ seen.1, seen.2 ++ [n]).

Fixpoint spec_breadth_first (fuel : nat) (graph : gmap Z (list pyvalue))
    (accumulated : list (list pyvalue)) (visited : gset Z) (queue : list Z)
    : option (list (list pyvalue)) :=
  match queue with
  | [] => Some accumulated
  | node :: queue' =>
      match fuel with
      | O => None
      | S fuel' =>
          let accumulated' :=
            match default [] (graph !! node) with
            | [] => accumulated
            | bundle => accumulated ++ [bundle]
            end in
          let seen := foldl spec_discover (visited, queue')
                            (spec_neighbours graph node) in
          spec_breadth_first fuel' graph accumulated' seen.1 seen.2
      end
  end.

(** A payload map with two sub-keys, and a map whose bundles name other
    keys, which the annotation excludes. *)
Definition url_payload : gmap Z (list pyvalue) :=
  {[ 1 := [PyStr "http://a"; PyStr "http://b"]; 2 := [PyStr "http://c"] ]}.
Definition linked_payload : gmap Z (list pyvalue) :=
  {[ 1 := [PyInt 2; PyInt 3]; 2 := [PyInt 4; PyInt 1];
     3 := [PyStr "http://a"]; 4 := [PyStr "http://b"] ]}.

(** *** Seed queue *)

(** In [deep_dive_search] the tree maps a location to its payload map, a
    dict from sub-keys to bundles; the payload map is kept as the list of
    its items in insertion order.  Iterating [tree.get(node, [])] yields the
    keys of the payload map, so these are the children [recursive_dfs]
    sees. *)
Definition subkeys (tree : gmap Z (list (Z * list pyvalue))) : gmap Z (list Z) :=
  (λ element, element.*1) <$> tree.

(** The keys of every payload map are distinct, as in any dict. *)
Definition distinct_keys (tree : gmap Z (list (Z * list pyvalue))) : Prop :=
  map_Forall (λ _ element, NoDup element.*1) tree.

(** The [for num in element.keys()] loop: it ends at the first exception,
    with what it has appended to the queue so far. *)
Fixpoint for_keys (fuel : nat) (element : gmap Z (list pyvalue)) (nums : list Z)
    (starting_queue : list (list pyvalue))
    : option (outcome unit * list (list pyvalue)) :=
  match nums with
  | [] => Some (Returned (), starting_queue)
  | num :: nums' =>
      match bfs_last_bundle fuel num element with
      | None => None
      | Some (Raised e) => Some (Raised e, starting_queue)
      | Some (Returned urls) =>
          for_keys fuel element nums' (starting_queue ++ [urls])
      end
  end.

(** The [for location in dfs] loop: [tree[location]] raises [KeyError] for a
    location without payload; [KeyError] and [IndexError] are caught and the
    loop goes on with the next location. *)
Fixpoint for_locations (fuel : nat) (tree : gmap Z (list (Z * list pyvalue)))
    (dfs : list Z) (starting_queue : list (list pyvalue))
    : option (outcome unit * list (list pyvalue)) :=
  match dfs with
  | [] => Some (Returned (), starting_queue)
  | location :: dfs' =>
      match tree !! location with
      | None => for_locations fuel tree dfs' starting_queue
      | Some element =>
          match for_keys fuel (list_to_map element) element.*1 starting_queue with
          | None => None
          | Some (Returned _, q) => for_locations fuel tree dfs' q
          | Some (Raised IndexError, q) => for_locations fuel tree dfs' q
          | Some (Raised e, q) => Some (Raised e, q)
          end
      end
  end.

(** [deep_dive_search(page, objection)], from the tree that
    [indstrict(page)] returns ([indstrict] is not among the sources). *)
Definition deep_dive_search (fuel : nat) (tree : gmap Z (list (Z * list pyvalue)))
    : option (outcome (list (list pyvalue))) :=
  match recursive_dfs 1 (subkeys tree) None with
  | None => None
  | Some dfs =>
      match for_locations fuel tree dfs [] with
      | None => None
      | Some (Returned _, q) => Some (Returned q)
      | Some (Raised e, _) => Some (Raised e)
      end
  end.

(** The bundles of a payload map in order, up to the first empty one. *)
Fixpoint bundles_until_empty (element : list (Z * list pyvalue))
    : list (list pyvalue) :=
  match element with
  | [] => []
  | (_, []) :: _ => []
  | (_, urls) :: element' => urls :: bundles_until_empty element'
  end.

(** A tree with payload at locations 1, 2 and 3; location 2 has an empty
    bundle between two others. *)
Definition sample_tree : gmap Z (list (Z * list pyvalue)) :=
  {[ 1 := [(2, [PyStr "http://a"]); (3, [PyStr "http://b"; PyStr "http://c"])];
     2 := [(4, [PyStr "http://d"]); (5, []); (6, [PyStr "http://e"])];
     3 := [] ]}.

(** *** Fetcher *)

(** What a GET for a URL meets: a response with a status code and a body,
    or a transport failure (timeout, DNS, connection reset), which [aiohttp]
    raises from [session.get]. *)
Inductive reply : Type :=
  | Response (status : Z) (body : string)
  | TransportFailure (reason : string).

(** [async_request]: the status code classified. *)
Definition async_request (url : string) (status : Z) : pyvalue :=
  if decide (status = 200) then PyStr url else PyDict [("status", status)].

(** [async_source]; decoding a JSON body is left to [json]. *)
Definition async_source (json : string → outcome pyvalue)
    (body : string) (response_type : string) : outcome pyvalue :=
  if decide (response_type = "html") then Returned (PyStr body)
  else if decide (response_type = "json") then json body
  else Returned PyNone.

(** [async_type]: the request is made inside [async with self.session.get];
    nothing in the method catches what [session.get] raises. *)
Definition async_type (json : string → outcome pyvalue) (net : string → reply)
    (url : string) (type_ : string) (source : string) : outcome pyvalue :=
  match net url with
  | TransportFailure reason => Raised (ClientError reason)
  | Response status body =>
      if decide (type_ = "source") then async_source json body source
      else if decide (type_ = "request") then Returned (async_request url status)
      else Returned PyNone
  end.

(** [async_request_status(url)] *)
Definition async_request_status (json : string → outcome pyvalue)
    (net : string → reply) (url : string) : outcome pyvalue :=
  async_type json net url "request" "".

(** [async_fetch_content(response_type, url)] *)
Definition async_fetch_content (json : string → outcome pyvalue)
    (net : string → reply) (response_type url : string) : outcome pyvalue :=
  async_type json net url "source" response_type.

(** The names bound in the body of [class AsyncRequestAcquisitionHTML]. *)
Definition ARAH_attributes : list string :=
  ["__init__"; "async_source"; "async_request"; "async_type";
   "async_request_status"; "async_fetch_content"].

(** [AsyncRequestAcquisitionHTML.<name>(url)]: the attribute is looked up
    on the class and called with one positional argument.  Only
    [async_request_status] takes exactly a URL; the coroutine it returns is
    represented by what awaiting it yields. *)
Definition ARAH_call (json : string → outcome pyvalue) (net : string → reply)
    (name : string) (url : string) : outcome (outcome pyvalue) :=
  if decide (name ∈ ARAH_attributes) then
    if decide (name = "async_request_status")
    then Returned (async_request_status json net url)
    else Raised TypeError
  else Raised (AttributeError name).

(** *** Bounded crawler *)

(** The attributes of an [AsyncWebCrawler] object. *)
Record crawler : Type := Crawler {
  start_url : string;
  max_pages : Z;
  max_depth : Z;
  visited_urls : gset string;
  url_queue : list (string * Z);
  results : gmap string (gset string)
}.

(** [AsyncWebCrawler.__init__] *)
Definition new_crawler (start_url : string) (max_pages max_depth : Z) : crawler :=
  {| start_url := start_url; max_pages := max_pages; max_depth := max_depth;
     visited_urls := ∅; url_queue := [(start_url, 0)]; results := ∅ |}.

(** Where a [crawl()] coroutine stands when it does not hold the processor:
    about to test the [while] condition, suspended in
    [await async_fetch_content(...)], returned, or ended by an exception. *)
Inductive task : Type :=
  | AtLoopTest
  | AwaitingContent (current_url : string) (depth : Z)
  | Finished
  | Aborted (e : exn).

(** One pass from the [while] test up to the fetch.  The queue is not empty
    when [url_queue.get()] is awaited, so [get] returns without suspending:
    the test, the [get], the membership test and [visited_urls.add] run
    without any other task in between. *)
Definition crawl_iteration (c : crawler) : task * crawler :=
  match url_queue c with
  | [] => (Finished, c)
  | (current_url, depth) :: rest =>
      if decide (Z.of_nat (size (visited_urls c)) < max_pages c) then
        let c' := {| start_url := start_url c; max_pages := max_pages c;
                     max_depth := max_depth c; visited_urls := visited_urls c;
                     url_queue := rest; results := results c |} in
        if decide (current_url ∈ visited_urls c ∨ depth > max_depth c)
        then (AtLoopTest, c')
        else (AwaitingContent current_url depth,
              {| start_url := start_url c; max_pages := max_pages c;
                 max_depth := max_depth c;
                 visited_urls := {[current_url]} ∪ visited_urls c;
                 url_queue := rest; results := results c |})
      else (Finished, c)
  end.

(** [await self.url_queue.put((link, depth + 1))] on the unbounded queue. *)
Definition put (entry : string * Z) (c : crawler) : crawler :=
  {| start_url := start_url c; max_pages := max_pages c; max_depth := max_depth c;
     visited_urls := visited_urls c; url_queue := url_queue c ++ [entry];
     results := results c |}.

(** The [for link in new_links] loop; [order] is the order in which the set
    is iterated. *)
Definition enqueue_links (depth : Z) (order : list string) (c : crawler) : crawler :=
  foldl (λ c link, if decide (link ∈ visited_urls c) then c else put (link, depth + 1) c)
        c order.

Section Crawler.

(** [parsing.util.parser_util.url_addition] and the [href] values of the
    [a] tags that BeautifulSoup finds in a document, in document order. *)
Variable url_addition : string → string → string.
Variable anchors : string → list string.

(** [AsyncWebCrawler.parse_links] *)
Definition parse_links (content base_url : string) : gset string :=
  foldl (λ links link,
           let link := if startswith "/" link then url_addition base_url link
                       else link in
           if startswith "http" link then {[link]} ∪ links else links)
        ∅ (anchors content).

(** From the return of the fetch to the next [while] test. *)
Definition crawl_resume (current_url : string) (depth : Z) (content : string)
    (order : list string) (c : crawler) : crawler :=
  if decide (content = "") then c
  else if decide (depth < max_depth c) then
    enqueue_links depth order
      {| start_url := start_url c; max_pages := max_pages c;
         max_depth := max_depth c; visited_urls := visited_urls c;
         url_queue := url_queue c;
         results := <[current_url := parse_links content current_url]> (results c) |}
  else c.

(** The crawler object shared by the tasks that [run] creates. *)
Record system : Type := System { shared : crawler; tasks : list task }.

(** [run(num_tasks)] before any task has run. *)
Definition run_start (start_url : string) (max_pages max_depth : Z)
    (num_tasks : nat) : system :=
  System (new_crawler start_url max_pages max_depth) (replicate num_tasks AtLoopTest).

(** One task runs from one suspension point to the next.  What the network
    answers to a fetch is not determined by the program. *)
Inductive step : system → system → Prop :=
  | step_iteration i c ts :
      ts !! i = Some AtLoopTest →
      step (System c ts)
           (System (crawl_iteration c).2 (<[i := (crawl_iteration c).1]> ts))
  | step_content i c ts current_url depth json net content order :
      ts !! i = Some (AwaitingContent current_url depth) →
      async_fetch_content json net "html" current_url = Returned (PyStr content) →
      order ≡ₚ elements (parse_links content current_url) →
      step (System c ts)
           (System (crawl_resume current_url depth content order c)
                   (<[i := AtLoopTest]> ts))
  | step_fault i c ts current_url depth json net e :
      ts !! i = Some (AwaitingContent current_url depth) →
      async_fetch_content json net "html" current_url = Raised e →
      step (System c ts) (System c (<[i := Aborted e]> ts)).

Definition reachable_from (s0 : system) : system → Prop := rtc step s0.

End Crawler.

(** A stand-in for [url_addition] that joins a base ending in a slash and a
    link starting with one, and a stand-in for the HTML parser that knows
    one page. *)
Definition join_url (base_url link : string) : string :=
  base_url +:+ String.substring 1 (String.length link - 1) link.
Definition one_page (content : string) : list string :=
  if decide (content = "<home>") then ["/a"; "http://y/"; "mailto:z"] else [].

(** A session with two tasks, bounds of five pages and depth one: at the
    start, after the first task has taken the seed from the queue, and after
    its fetch has returned the page [<home>]. *)
Definition session0 : system := run_start "http://x/" 5 1 2.
Definition session1 : system :=
  System (crawl_iteration (shared session0)).2
         (<[0%nat := (crawl_iteration (shared session0)).1]> (tasks session0)).
Definition session2 : system :=
  System (crawl_resume join_url one_page "http://x/" 0 "<home>"
            (elements (parse_links join_url one_page "<home>" "http://x/"))
            (shared session1))
         (<[0%nat := AtLoopTest]> (tasks session1)).

(** What is left of the page budget, and the marks that count the tasks
    suspended in a fetch and the tasks about to test the loop condition. *)
Definition pages_left (c : crawler) : nat :=
  Z.to_nat (max_pages c - Z.of_nat (size (visited_urls c))).
Definition is_awaiting (t : task) : nat :=
  match t with AwaitingContent _ _ => 1 | _ => 0 end.
Definition is_at_loop_test (t : task) : nat :=
  match t with AtLoopTest => 1 | _ => 0 end.

(** The same session with depth bound 0, and with page bound 0 after one
    task has tested the loop condition. *)
Definition shallow0 : system := run_start "http://x/" 5 0 2.
Definition shallow1 : system :=
  System (crawl_iteration (shared shallow0)).2
         (<[0%nat := (crawl_iteration (shared shallow0)).1]> (tasks shallow0)).
Definition shallow2 : system :=
  System (crawl_resume join_url one_page "http://x/" 0 "<home>"
            (elements (parse_links join_url one_page "<home>" "http://x/"))
            (shared shallow1))
         (<[0%nat := AtLoopTest]> (tasks shallow1)).
Definition closed0 : system := run_start "http://x/" 0 1 2.
Definition closed1 : system :=
  System (crawl_iteration (shared closed0)).2
         (<[0%nat := (crawl_iteration (shared closed0)).1]> (tasks closed0)).
Definition closed2 : system :=
  System (crawl_iteration (shared closed1)).2
         (<[1%nat := (crawl_iteration (shared closed1)).1]> (tasks closed1)).

End Search.

(** ** [parsing/asnyc_protocol.py] *)

Module AsyncProtocol.
Import Search.

(** What the module writes to standard output. *)
Inductive notice : Type :=
  | TypeMismatch (v : pyvalue)
  | BundleNotice (n : nat).

(** The module-level deques [ready_queue] and [not_request_queue], the
    output written so far, and the batches handed to [asyncio.gather]. *)
Record session : Type := Session {
  ready_queue : list string;
  not_request_queue : list (list (string * Z));
  stdout : list notice;
  gathered : list (list string)
}.

Definition fresh : session := Session [] [] [] [].

(** The body of the [for url in result] loop of [url_classifier]. *)
Definition classify (s : session) (url : pyvalue) : session :=
  match url with
  | PyStr u =>
      Session (ready_queue s ++ [u]) (not_request_queue s) (stdout s) (gathered s)
  | PyDict d =>
      Session (ready_queue s) (not_request_queue s ++ [d]) (stdout s) (gathered s)
  | other =>
      Session (ready_queue s) (not_request_queue s)
              (stdout s ++ [TypeMismatch other]) (gathered s)
  end.

(** The strings, the dictionaries and the remaining items of a result
    list, each in the order of the list. *)
Definition strings_of (result : list pyvalue) : list string :=
  omap (λ v, match v with PyStr u => Some u | _ => None end) result.
Definition dicts_of (result : list pyvalue) : list (list (string * Z)) :=
  omap (λ v, match v with PyDict d => Some d | _ => None end) result.
Definition unclassified (v : pyvalue) : bool :=
  match v with PyStr _ | PyDict _ => false | _ => true end.
Definition others_of (result : list pyvalue) : list pyvalue :=
  filter (λ v, unclassified v) result.

(** For a list of URLs and the answers of the network: whether a URL is
    answered with status 200, the [{"status": code}] records of the URLs
    answered with another status, and the exception objects of the URLs
    whose request failed in transport. *)
Definition answered_ok (net : string → reply) (url : string) : bool :=
  match net url with
  | Response status _ => bool_decide (status = 200)
  | TransportFailure _ => false
  end.
Definition refusals (net : string → reply) (urls : list string)
    : list (list (string * Z)) :=
  omap (λ url, match net url with
               | Response status _ =>
                   if decide (status = 200) then None else Some [("status", status)]
               | TransportFailure _ => None
               end) urls.
Definition failures (net : string → reply) (urls : list string) : list pyvalue :=
  omap (λ url, match net url with
               | Response _ _ => None
               | TransportFailure reason => Some (PyExc (ClientError reason))
               end) urls.

(** [url_classifier(result)] *)
Definition url_classifier (result : list pyvalue) (s : session) : session :=
  foldl classify s result.

(** [range(0, stop, step)] for [stop >= 0]. *)
Definition range0 (stop step : Z) : outcome (list Z) :=
  if decide (step = 0) then Raised ValueError
  else if decide (step < 0) then Returned []
  else Returned ((λ i, i * step) <$> seqZ 0 ((stop + step - 1) `div` step)).

(** [node[lo:hi]] for [0 <= lo <= hi]. *)
Definition slice (node : list string) (lo hi : Z) : list string :=
  take (Z.to_nat (hi - lo)) (drop (Z.to_nat lo) node).

(** The batches that the [for count in range(0, len(node), batch_size)] loop
    cuts out of a bundle. *)
Definition batches (node : list string) (batch_size : Z) : outcome (list (list string)) :=
  match range0 (Z.of_nat (length node)) batch_size with
  | Returned counts => Returned ((λ count, slice node count (count + batch_size)) <$> counts)
  | Raised e => Raised e
  end.

(** The list comprehension [[ARAH.<method>(url) for url in batch]]: it stops
    at the first call that raises. *)
Fixpoint make_tasks (call : string → outcome (outcome pyvalue)) (batch : list string)
    : outcome (list (outcome pyvalue)) :=
  match batch with
  | [] => Returned []
  | url :: batch' =>
      match call url with
      | Raised e => Raised e
      | Returned t =>
          match make_tasks call batch' with
          | Raised e => Raised e
          | Returned ts => Returned (t :: ts)
          end
      end
  end.

(** [await asyncio.gather] over the tasks with [return_exceptions=True]: the results in
    the order of the tasks, an exception object for a task that raised. *)
Definition gather_return_exceptions (tasks : list (outcome pyvalue)) : list pyvalue :=
  (λ t, match t with Returned v => v | Raised e => PyExc e end) <$> tasks.

(** The body of the loop over the batches of one bundle. *)
Fixpoint for_batches (call : string → outcome (outcome pyvalue))
    (bs : list (list string)) (s : session) : outcome unit * session :=
  match bs with
  | [] => (Returned (), s)
  | batch :: bs' =>
      match make_tasks call batch with
      | Raised e => (Raised e, s)
      | Returned tasks =>
          let s1 := Session (ready_queue s) (not_request_queue s) (stdout s)
                            (gathered s ++ [batch]) in
          for_batches call bs' (url_classifier (gather_return_exceptions tasks) s1)
      end
  end.

(** The [while start:] loop, over the bundles in the order [start.pop()]
    yields them.  Returns how the loop ended, the session, and the bundles
    not popped yet (still in pop order). *)
Fixpoint while_start (call : string → outcome (outcome pyvalue)) (batch_size : Z)
    (stack : list (list string)) (s : session)
    : outcome unit * session * list (list string) :=
  match stack with
  | [] => (Returned (), s, [])
  | node :: stack' =>
      if decide (0 < length node)%nat then
        let s1 := Session (ready_queue s) (not_request_queue s)
                          (stdout s ++ [BundleNotice (length node)]) (gathered s) in
        match batches node batch_size with
        | Raised e => (Raised e, s1, stack')
        | Returned bs =>
            match for_batches call bs s1 with
            | (Returned _, s2) => while_start call batch_size stack' s2
            | (Raised e, s2) => (Raised e, s2, stack')
            end
        end
      else while_start call batch_size stack' s
  end.

(** The dispatcher with the method it calls on the class as a parameter. *)
Definition dispatch_with (method : string) (json : string → outcome pyvalue)
    (net : string → reply) (start : list (list string)) (batch_size : Z)
    (s : session) : outcome unit * session * list (list string) :=
  match while_start (ARAH_call json net method) batch_size (rev start) s with
  | (o, s', stack) => (o, s', rev stack)
  end.

(** [aiorequest_injection(start, batch_size)]: the method named in the
    source is [asnyc_request]. *)
Definition aiorequest_injection := dispatch_with "asnyc_request".

End AsyncProtocol.

(** * Properties *)

Import Search AsyncProtocol.

(** ** Depth-first ordering *)

Section DepthFirst.

Variable graph : gmap Z (list Z).

Lemma children_listed n c : c ∈ children graph n → c ∈ listed graph.
Proof.
  unfold children, listed. destruct (graph !! n) as [cs|] eqn:Hn; simpl.
  - intros Hc. apply list_elem_of_join. exists cs. split; [done|].
    apply list_elem_of_fmap. exists (n, cs). split; [done|].
    by apply elem_of_map_to_list.
  - by intros ?%elem_of_nil.
Qed.

(** The executable traversal refines the relation. *)
Lemma dfs_for_loop rec ns d r :
  (∀ n d r, rec n d = Some r → dfs_loop graph (children graph n) (d ++ [n]) r) →
  dfs_for rec ns d = Some r → dfs_loop graph ns d r.
Proof.
  intros Hrec. revert d. induction ns as [|n ns IH]; intros d; simpl.
  - intros [= <-]. constructor.
  - destruct (decide (n ∈ d)) as [Hin|Hnin].
    + intros H. apply dfs_loop_skip; auto.
    + destruct (rec n d) as [d'|] eqn:Hcall; [|done].
      intros H. eapply dfs_loop_visit; eauto.
Qed.

Lemma dfs_call_loop depth n d r :
  dfs_call depth graph n d = Some r →
  dfs_loop graph (children graph n) (d ++ [n]) r.
Proof.
  revert n d r. induction depth as [|depth IH]; intros n d r; simpl; [done|].
  apply dfs_for_loop. exact IH.
Qed.

Lemma dfs_loop_prefix ns d r : dfs_loop graph ns d r → d `prefix_of` r.
Proof.
  induction 1 as [d|n ns d r _ _ IH|n ns d d' r _ _ IH1 _ IH2]; [done|done|].
  etrans; [|exact IH2]. etrans; [|exact IH1]. by apply prefix_app_r.
Qed.

Lemma dfs_loop_deterministic ns d r1 r2 :
  dfs_loop graph ns d r1 → dfs_loop graph ns d r2 → r1 = r2.
Proof.
  intros H1. revert r2.
  induction H1 as [d|n ns d r Hin _ IH|n ns d d' r Hnin _ IH1 _ IH2];
    intros r2 H2; inversion H2; subst; try done.
  - by apply IH.
  - apply IH2. by rewrite (IH1 _ ltac:(eassumption)).
Qed.

Lemma dfs_loop_NoDup ns d r : dfs_loop graph ns d r → NoDup d → NoDup r.
Proof.
  induction 1 as [d|n ns d r _ _ IH|n ns d d' r Hnin _ IH1 _ IH2]; auto.
  intros Hd. apply IH2, IH1. apply NoDup_app. split_and!; [done| |apply NoDup_singleton].
  intros x Hx ->%list_elem_of_singleton. done.
Qed.

(** Every node the loop was asked about ends up discovered, and every node
    it adds has all its children discovered at the end. *)
Lemma dfs_loop_closed ns d r :
  dfs_loop graph ns d r →
  (∀ c, c ∈ ns → c ∈ r) ∧
  (∀ x, x ∈ r → x ∉ d → ∀ c, c ∈ children graph x → c ∈ r).
Proof.
  induction 1 as [d|n ns d r Hin Hl [IHa IHb]
                 |n ns d d' r Hnin Hl1 [IH1a IH1b] Hl2 [IH2a IH2b]].
  - split; [by intros c ?%elem_of_nil|done].
  - split; [|done]. intros c [->|Hc]%elem_of_cons; [|by apply IHa].
    by eapply elem_of_prefix, dfs_loop_prefix.
  - pose proof (dfs_loop_prefix _ _ _ Hl1) as P1.
    pose proof (dfs_loop_prefix _ _ _ Hl2) as P2.
    assert (n ∈ d') as Hn by (eapply elem_of_prefix; [|exact P1]; set_solver).
    split.
    + intros c [->|Hc]%elem_of_cons; [|by apply IH2a].
      by eapply elem_of_prefix.
    + intros x Hx Hxd c Hc.
      destruct (decide (x ∈ d')) as [Hxd'|Hxd']; [|by eapply IH2b].
      eapply elem_of_prefix; [|exact P2].
      destruct (decide (x = n)) as [->|Hne]; [by apply IH1a|].
      eapply IH1b; [done| |done].
      intros [?| ->%list_elem_of_singleton]%elem_of_app; done.
Qed.

(** Every node the loop adds is reachable from one it was asked about. *)
Lemma dfs_loop_reach ns d r :
  dfs_loop graph ns d r →
  ∀ x, x ∈ r → x ∈ d ∨ ∃ c, c ∈ ns ∧ reachable graph c x.
Proof.
  induction 1 as [d|n ns d r Hin Hl IH|n ns d d' r Hnin Hl1 IH1 Hl2 IH2];
    intros x Hx.
  - by left.
  - destruct (IH x Hx) as [?|(c & Hc & Hr)]; [by left|].
    right. exists c. split; [by right|done].
  - destruct (IH2 x Hx) as [Hd'|(c & Hc & Hr)].
    + destruct (IH1 x Hd') as [[?| ->%list_elem_of_singleton]%elem_of_app|(c & Hc & Hr)].
      * by left.
      * right. exists n. split; [by left|]. apply rtc_refl.
      * right. exists n. split; [by left|]. by eapply rtc_l.
    + right. exists c. split; [by right|done].
Qed.

Lemma size_list_to_set_le (l : list Z) :
  (size (list_to_set l : gset Z) ≤ length l)%nat.
Proof.
  induction l as [|x l IH].
  - rewrite list_to_set_nil, size_empty. done.
  - rewrite list_to_set_cons. simpl.
    destruct (decide (x ∈ (list_to_set l : gset Z))) as [Hin|Hnin].
    + replace ({[x]} ∪ list_to_set l : gset Z) with (list_to_set l : gset Z)
        by set_solver. lia.
    + rewrite size_union by set_solver. rewrite size_singleton. lia.
Qed.

Lemma undiscovered_bound d : (undiscovered graph d ≤ length (listed graph))%nat.
Proof.
  unfold undiscovered. etrans; [|apply size_list_to_set_le].
  apply subseteq_size. set_solver.
Qed.

Lemma undiscovered_mono d d' :
  d `prefix_of` d' → (undiscovered graph d' ≤ undiscovered graph d)%nat.
Proof.
  intros [t ->]. apply subseteq_size. set_solver.
Qed.

Lemma undiscovered_append n d :
  n ∈ listed graph → n ∉ d →
  (undiscovered graph (d ++ [n]) < undiscovered graph d)%nat.
Proof.
  intros Hn Hd. apply subset_size. set_solver.
Qed.

(** With a nesting bound above the number of undiscovered nodes the loop
    runs to completion. *)
Lemma dfs_for_terminates rec bound ns d :
  (∀ n d, n ∈ listed graph → n ∉ d → (undiscovered graph d ≤ bound)%nat →
          ∃ r, rec n d = Some r ∧ d `prefix_of` r) →
  (∀ c, c ∈ ns → c ∈ listed graph) →
  (undiscovered graph d ≤ bound)%nat →
  is_Some (dfs_for rec ns d).
Proof.
  intros Hrec. revert d. induction ns as [|n ns IH]; intros d Hns Hd; simpl; [done|].
  destruct (decide (n ∈ d)) as [Hin|Hnin].
  - apply IH; [set_solver|done].
  - destruct (Hrec n d) as (r & -> & Hpre); [set_solver|done|done|].
    apply IH; [set_solver|]. etrans; [by apply undiscovered_mono|done].
Qed.

Lemma dfs_call_terminates bound n d :
  n ∈ listed graph → n ∉ d → (undiscovered graph d ≤ bound)%nat →
  ∃ r, dfs_call bound graph n d = Some r ∧ d `prefix_of` r.
Proof.
  revert n d. induction bound as [|bound IH]; intros n d Hn Hd Hm.
  - pose proof (undiscovered_append n d Hn Hd). lia.
  - simpl.
    destruct (dfs_for_terminates (dfs_call bound graph) bound
                (children graph n) (d ++ [n])) as [r Hr].
    + exact IH.
    + intros c. apply children_listed.
    + pose proof (undiscovered_append n d Hn Hd). lia.
    + exists r. split; [done|].
      etrans; [|eapply dfs_loop_prefix, dfs_for_loop, Hr; apply dfs_call_loop].
      by apply prefix_app_r.
Qed.

(** [recursive_dfs] returns, and what it returns is the outcome of the loop
    over the children of [node] with [node] appended to the list. *)
Lemma recursive_dfs_returns node discovered :
  ∃ r, recursive_dfs node graph discovered = Some r ∧
       dfs_loop graph (children graph node) (default [] discovered ++ [node]) r.
Proof.
  unfold recursive_dfs. simpl.
  destruct (dfs_for_terminates (dfs_call (length (listed graph)) graph)
              (length (listed graph)) (children graph node)
              (default [] discovered ++ [node])) as [r Hr].
  - intros n d. apply dfs_call_terminates.
  - intros c. apply children_listed.
  - apply undiscovered_bound.
  - exists r. split; [done|]. eapply dfs_for_loop, Hr. apply dfs_call_loop.
Qed.

(** A larger nesting bound does not change the result. *)
Lemma dfs_call_bound_irrelevant depth node r :
  dfs_call depth graph node [] = Some r → recursive_dfs node graph None = Some r.
Proof.
  intros H%dfs_call_loop.
  destruct (recursive_dfs_returns node None) as (r' & -> & H').
  f_equal. eapply dfs_loop_deterministic; eauto.
Qed.

(** Started with an empty list, the traversal discovers exactly the nodes
    reachable from the start, each once. *)
Lemma dfs_loop_from_start node r :
  dfs_loop graph (children graph node) [node] r →
  NoDup r ∧ ∀ n, n ∈ r ↔ reachable graph node n.
Proof.
  intros Hl. split; [eapply dfs_loop_NoDup; [done|apply NoDup_singleton]|].
  pose proof (dfs_loop_prefix _ _ _ Hl) as Hpre.
  destruct (dfs_loop_closed _ _ _ Hl) as [Ha Hb].
  assert (node ∈ r) as Hnode by (eapply elem_of_prefix; [|done]; by left).
  intros n. split.
  - intros Hn. destruct (dfs_loop_reach _ _ _ Hl n Hn)
      as [->%list_elem_of_singleton|(c & Hc & Hr)]; [apply rtc_refl|].
    by eapply rtc_l.
  - assert (∀ x, x ∈ r → ∀ c, c ∈ children graph x → c ∈ r) as Hclosed.
    { intros x Hx c Hc. destruct (decide (x = node)) as [->|Hne]; [by apply Ha|].
      eapply Hb; [done| |done]. by intros ?%list_elem_of_singleton. }
    intros Hr. revert Hnode. clear -Hr Hclosed.
    induction Hr as [x|x y z Hxy _ IH]; [done|].
    intros Hx. apply IH. by eapply Hclosed.
Qed.

Lemma elem_of_absorb x d l : x ∈ absorb d l ↔ x ∈ d ∨ x ∈ l.
Proof.
  unfold absorb. revert d. induction l as [|y l IH]; intros d; simpl.
  - rewrite elem_of_nil. tauto.
  - rewrite IH, elem_of_cons. destruct (decide (y ∈ d)) as [Hy|Hy].
    + split; [tauto|]. intros [?|[->|?]]; auto.
    + rewrite elem_of_app, list_elem_of_singleton. tauto.
Qed.

Lemma absorb_app d l1 l2 : absorb d (l1 ++ l2) = absorb (absorb d l1) l2.
Proof. apply foldl_app. Qed.

Lemma absorb_seen d l : (∀ x, x ∈ l → x ∈ d) → absorb d l = d.
Proof.
  unfold absorb. induction l as [|y l IH]; intros Hl; simpl; [done|].
  rewrite decide_True by (apply Hl; by left). apply IH.
  intros x Hx. apply Hl. by right.
Qed.

Lemma absorb_fresh d n l : n ∉ d → absorb d (n :: l) = absorb (d ++ [n]) l.
Proof. intros Hn. unfold absorb. simpl. by rewrite decide_False. Qed.

Section Acyclic.

Variable rank : Z → nat.
Hypothesis graph_ranked : ranked rank graph.

Lemma ranked_children n c : c ∈ children graph n → (rank c < rank n)%nat.
Proof.
  unfold children. destruct (graph !! n) as [cs|] eqn:Hn; simpl.
  - intros Hc. pose proof (map_Forall_lookup_1 _ _ _ _ graph_ranked Hn) as Hcs.
    rewrite Forall_forall in Hcs. by apply Hcs.
  - by intros ?%elem_of_nil.
Qed.

(** A ranked graph has no edge path from a node back to itself. *)
Lemma ranked_path a b : tc (edge graph) a b → (rank b < rank a)%nat.
Proof.
  induction 1 as [a b Hab|a b c Hab _ IH].
  - by apply ranked_children.
  - pose proof (ranked_children _ _ Hab). lia.
Qed.

Lemma ranked_no_cycle a : ¬ tc (edge graph) a a.
Proof. intros H%ranked_path. lia. Qed.

Lemma flat_map_agree (f g : Z → list Z) l :
  (∀ c, c ∈ l → f c = g c) → flat_map f l = flat_map g l.
Proof.
  induction l as [|c l IH]; intros H; simpl; [done|].
  rewrite H by (by left). rewrite IH; [done|].
  intros c' Hc'. apply H. by right.
Qed.

(** Once the cut is below the rank of the node the unfolding is complete. *)
Lemma tree_preorder_stable depth n :
  (rank n < depth)%nat →
  tree_preorder depth graph n = tree_preorder (S (rank n)) graph n.
Proof.
  revert n. induction (lt_wf depth) as [depth _ IH]. intros n Hn.
  destruct depth as [|depth]; [lia|]. simpl. f_equal.
  apply flat_map_agree. intros c Hc%ranked_children.
  rewrite (IH depth) by lia. rewrite (IH (rank n)) by lia. done.
Qed.

Lemma tree_preorder_unfold n :
  tree_preorder (S (rank n)) graph n =
  n :: flat_map (λ c, tree_preorder (S (rank c)) graph c) (children graph n).
Proof.
  simpl. f_equal. apply flat_map_agree.
  intros c Hc%ranked_children. by apply tree_preorder_stable.
Qed.

Lemma tree_preorder_subtree n x y :
  x ∈ tree_preorder (S (rank n)) graph n →
  y ∈ tree_preorder (S (rank x)) graph x →
  y ∈ tree_preorder (S (rank n)) graph n.
Proof.
  remember (rank n) as k eqn:Hk. revert n Hk.
  induction (lt_wf k) as [k _ IH]. intros n -> Hx Hy.
  rewrite tree_preorder_unfold in Hx |- *.
  apply elem_of_cons in Hx as [->|Hx].
  - by rewrite <-tree_preorder_unfold.
  - right. apply list_elem_of_In, in_flat_map in Hx as (c & Hc%list_elem_of_In & Hx%list_elem_of_In).
    apply list_elem_of_In, in_flat_map. exists c. split; [by apply list_elem_of_In|].
    apply list_elem_of_In.
    eapply (IH (rank c)); [by apply ranked_children|done|done|done].
Qed.

(** On a ranked graph the loop appends, in order, the nodes of the unfolded
    subtrees that are not discovered yet. *)
Lemma dfs_loop_preorder ns d r :
  dfs_loop graph ns d r →
  ∀ bound,
    (∀ c, c ∈ ns → (rank c < bound)%nat) →
    (∀ m, m ∈ d → (rank m < bound)%nat →
          ∀ y, y ∈ tree_preorder (S (rank m)) graph m → y ∈ d) →
    r = absorb d (flat_map (λ c, tree_preorder (S (rank c)) graph c) ns).
Proof.
  induction 1 as [d|n ns d r Hin _ IH|n ns d d' r Hnin _ IH1 _ IH2];
    intros bound Hns Hd; cbn [flat_map].
  - done.
  - rewrite absorb_app, (absorb_seen d (tree_preorder (S (rank n)) graph n)).
    + apply (IH bound); [|done]. intros c Hc. apply Hns. by right.
    + apply Hd; [done|]. apply Hns. by left.
  - assert (d' = absorb d (tree_preorder (S (rank n)) graph n)) as Hd'.
    { rewrite tree_preorder_unfold, absorb_fresh by done.
      apply (IH1 (rank n)); [apply ranked_children|].
      intros m [Hm| ->%list_elem_of_singleton]%elem_of_app Hlt y Hy; [|lia].
      apply elem_of_app. left. apply (Hd m); [done| |done].
      assert (rank n < bound)%nat by (apply Hns; by left). lia. }
    rewrite absorb_app, <-Hd'.
    apply (IH2 bound); [intros c Hc; apply Hns; by right|].
    intros m Hm Hlt y Hy. rewrite Hd' in Hm |- *.
    apply elem_of_absorb in Hm as [Hm|Hm]; apply elem_of_absorb.
    + left. by apply (Hd m).
    + right. by apply (tree_preorder_subtree n m).
Qed.

End Acyclic.

End DepthFirst.

Example dfs_diamond : recursive_dfs 1 diamond None = Some [1; 2; 4; 3; 5].
Proof. vm_compute. reflexivity. Qed.

Example dfs_triangle : recursive_dfs 2 triangle None = Some [2; 3; 1; 4].
Proof. vm_compute. reflexivity. Qed.

Example triangle_cycle : tc (edge triangle) 1 1.
Proof.
  apply (tc_l _ 1 2); [|apply (tc_l _ 2 3); [|apply tc_once]];
    unfold edge; vm_compute; set_solver.
Qed.

(** C7. [recursive_dfs] returns on every graph and from every start node,
    so in particular on a graph with a cycle, and no node occurs twice in
    the list it returns. *)
Theorem recursive_dfs_terminates_without_repeats
    (graph : gmap Z (list Z)) (node : Z) :
  ∃ order, recursive_dfs node graph None = Some order ∧ NoDup order.
Proof.
  destruct (recursive_dfs_returns graph node None) as (r & Hr & Hl).
  exists r. split; [done|]. by apply (dfs_loop_from_start graph node).
Qed.

(** On a ranked graph the list returned from node 1 is the preorder walk
    of the unfolded graph with repeated occurrences dropped. *)
Lemma recursive_dfs_ranked_preorder
    (graph : gmap Z (list Z)) (rank : Z → nat) :
  ranked rank graph →
  ∃ order,
    recursive_dfs 1 graph None = Some order ∧
    NoDup order ∧
    (∀ n, n ∈ order ↔ reachable graph 1 n) ∧
    order = first_occurrences (tree_preorder (S (rank 1)) graph 1).
Proof.
  intros Hrank.
  destruct (recursive_dfs_returns graph 1 None) as (r & Hr & Hl).
  exists r. split; [done|].
  destruct (dfs_loop_from_start graph 1 r Hl) as [Hnd Hreach].
  split_and!; [done|done|].
  unfold first_occurrences.
  rewrite (tree_preorder_unfold graph rank Hrank), absorb_fresh by apply not_elem_of_nil.
  apply (dfs_loop_preorder graph rank Hrank _ _ _ Hl (rank 1)).
  - by apply ranked_children.
  - intros m ->%list_elem_of_singleton. lia.
Qed.

(** *** Every finite graph without a cycle can be ranked *)

Section Height.

Variable graph : gmap Z (list Z).
Hypothesis no_cycle : acyclic graph.

Lemma height_le depth n : (height depth graph n ≤ depth)%nat.
Proof.
  revert n. induction depth as [|depth IH]; intros n; simpl; [done|].
  apply le_n_S.
  destruct (height depth graph <$> children graph n) as [|h hs] eqn:Hhs; [simpl; lia|].
  assert (max_list (h :: hs) ∈ h :: hs) as Hmax by (by apply max_list_elem_of).
  rewrite <-Hhs in Hmax |- *.
  apply list_elem_of_fmap in Hmax as (c & -> & _). apply IH.
Qed.

Lemma height_path depth n :
  height (S depth) graph n = S depth →
  ∃ l, is_path graph (n :: l) ∧ length l = depth.
Proof.
  revert n. induction depth as [|depth IH]; intros n Hh.
  - by exists [].
  - assert (max_list (height (S depth) graph <$> children graph n) = S depth)
      as Hh' by (by injection Hh).
    assert (max_list (height (S depth) graph <$> children graph n)
            ∈ height (S depth) graph <$> children graph n) as Hmax.
    { apply max_list_elem_of. intros Hnil. rewrite Hnil in Hh'. discriminate Hh'. }
    rewrite Hh' in Hmax.
    apply list_elem_of_fmap in Hmax as (c & Hc & Hedge).
    destruct (IH c) as (l & Hpath & Hlen); [done|].
    exists (c :: l). split; [|by rewrite <-Hlen]. by split.
Qed.

Lemma is_path_tail x l : is_path graph (x :: l) → is_path graph l.
Proof. destruct l; [done|]. by intros [_ ?]. Qed.

Lemma is_path_tc x l y : is_path graph (x :: l) → y ∈ l → tc (edge graph) x y.
Proof.
  revert x. induction l as [|z l IH]; intros x Hp Hy; [by apply elem_of_nil in Hy|].
  destruct Hp as [Hxz Hp]. apply elem_of_cons in Hy as [->|Hy].
  - by apply tc_once.
  - eapply tc_l; [done|]. by apply IH.
Qed.

Lemma is_path_listed x l y : is_path graph (x :: l) → y ∈ l → y ∈ listed graph.
Proof.
  revert x. induction l as [|z l IH]; intros x Hp Hy; [by apply elem_of_nil in Hy|].
  destruct Hp as [Hxz Hp]. apply elem_of_cons in Hy as [->|Hy].
  - by eapply children_listed.
  - by eapply IH.
Qed.

Lemma is_path_NoDup l : is_path graph l → NoDup l.
Proof.
  induction l as [|x l IH]; intros Hp; [constructor|].
  constructor; [|by apply IH, (is_path_tail x)].
  intros Hx. by apply (no_cycle x), (is_path_tc x l).
Qed.

Lemma is_path_length x l :
  is_path graph (x :: l) → (length l ≤ length (listed graph))%nat.
Proof.
  intros Hp. apply submseteq_length, NoDup_submseteq.
  - by apply is_path_NoDup, (is_path_tail x).
  - intros y. by apply (is_path_listed x).
Qed.

Lemma height_below depth n :
  (length (listed graph) + 2 ≤ depth)%nat → (height depth graph n < depth)%nat.
Proof.
  intros Hd. pose proof (height_le depth n) as Hle.
  destruct (decide (height depth graph n = depth)) as [Heq|]; [|lia].
  destruct depth as [|depth]; [lia|].
  destruct (height_path depth n Heq) as (l & Hp & Hlen).
  pose proof (is_path_length n l Hp). lia.
Qed.

Lemma height_stable depth n :
  (height depth graph n < depth)%nat →
  height (S depth) graph n = height depth graph n.
Proof.
  revert n. induction depth as [|depth IH]; intros n Hlt; [lia|].
  change (S (max_list (height (S depth) graph <$> children graph n)) =
          S (max_list (height depth graph <$> children graph n))).
  do 2 f_equal. apply list_fmap_ext. intros _ c Hc%list_elem_of_lookup_2.
  apply IH. simpl in Hlt.
  pose proof (max_list_elem_of_le (height depth graph c)
                (height depth graph <$> children graph n)) as Hmax.
  specialize (Hmax ltac:(by apply list_elem_of_fmap_2)). lia.
Qed.

Lemma acyclic_ranked :
  ranked (height (length (listed graph) + 2) graph) graph.
Proof.
  apply map_Forall_lookup_2. intros n cs Hn. apply Forall_forall. intros c Hc.
  set (K := (length (listed graph) + 2)%nat).
  rewrite <-(height_stable K n) by (by apply height_below).
  simpl. apply Nat.lt_succ_r, max_list_elem_of_le, list_elem_of_fmap_2.
  unfold children. by rewrite Hn.
Qed.

End Height.

(** C8. On a graph without cycles, [recursive_dfs(1, graph)] returns a list
    that holds every node reachable from node 1, and no other, exactly once,
    in preorder: the nodes are in the order of their first occurrence in the
    preorder walk of the graph unfolded into a tree from node 1 (the
    unfolding is complete once the cut is deeper than any path). *)
Theorem recursive_dfs_acyclic_preorder (graph : gmap Z (list Z)) :
  acyclic graph →
  ∃ order,
    recursive_dfs 1 graph None = Some order ∧
    NoDup order ∧
    (∀ n, n ∈ order ↔ reachable graph 1 n) ∧
    ∀ depth, (length (listed graph) + 2 ≤ depth)%nat →
             order = first_occurrences (tree_preorder depth graph 1).
Proof.
  intros Hacyclic.
  pose proof (acyclic_ranked graph Hacyclic) as Hrank.
  destruct (recursive_dfs_ranked_preorder graph _ Hrank)
    as (order & Hrun & Hnd & Hreach & Hpre).
  exists order. split_and!; [done..|].
  intros depth Hdepth. rewrite Hpre.
  rewrite (tree_preorder_stable graph _ Hrank depth); [done|].
  pose proof (height_below graph Hacyclic (length (listed graph) + 2) 1). lia.
Qed.

Lemma diamond_acyclic : acyclic diamond.
Proof.
  intros n. apply (ranked_no_cycle diamond diamond_rank).
  apply (bool_decide_unpack _). by vm_compute.
Defined.

Lemma recursive_dfs_acyclic_preorder_witness :
  acyclic diamond ∧
  ∃ order,
    recursive_dfs 1 diamond None = Some order ∧
    NoDup order ∧
    (∀ n, n ∈ order ↔ reachable diamond 1 n) ∧
    ∀ depth, (length (listed diamond) + 2 ≤ depth)%nat →
             order = first_occurrences (tree_preorder depth diamond 1).
Proof.
  split; [exact diamond_acyclic|].
  exact (recursive_dfs_acyclic_preorder diamond diamond_acyclic).
Defined.

Example preorder_diamond :
  first_occurrences (tree_preorder 7 diamond 1) = [1; 2; 4; 3; 5] ∧
  tree_preorder 7 diamond 1 = [1; 2; 4; 3; 4; 5].
Proof. by vm_compute. Qed.

(** ** Breadth-first bundle collection *)

(** The loop body never puts anything but the node it just took back on the
    queue, and only if that node is not in [visited]; the start node is in
    [visited] from the beginning.  So the loop runs once. *)
Lemma iterative_bfs_start_only fuel start_v graph :
  iterative_bfs (S fuel) start_v graph =
  Some match default [] (graph !! start_v) with
       | [] => []
       | bundle => [bundle]
       end.
Proof.
  unfold iterative_bfs. simpl.
  destruct (default [] (graph !! start_v)) as [|v bundle].
  - by destruct fuel.
  - rewrite decide_True by set_solver. by destruct fuel.
Qed.




(** The exploration of [spec_breadth_first] does go from key to key where
    bundles name keys. *)
Example spec_breadth_first_linked :
  spec_breadth_first 8 linked_payload [] {[1]} [1]
  = Some [[PyInt 2; PyInt 3]; [PyInt 4; PyInt 1];
          [PyStr "http://a"]; [PyStr "http://b"]].
Proof. by vm_compute. Qed.




Example iterative_bfs_url_payload :
  iterative_bfs 1 1 url_payload = Some [[PyStr "http://a"; PyStr "http://b"]] ∧
  bfs_last_bundle 1 1 url_payload
    = Some (Returned [PyStr "http://a"; PyStr "http://b"]) ∧
  bfs_last_bundle 1 3 url_payload = Some (Raised IndexError).
Proof. by vm_compute. Qed.

(** ** Result classification *)

Lemma url_classifier_cons v result s :
  url_classifier (v :: result) s = url_classifier result (classify s v).
Proof. done. Qed.

Lemma url_classifier_queues result s :
  url_classifier result s =
  Session (ready_queue s ++ strings_of result)
          (not_request_queue s ++ dicts_of result)
          (stdout s ++ (TypeMismatch <$> others_of result))
          (gathered s).
Proof.
  revert s. induction result as [|v result IH]; intros [r n o g].
  - simpl. by rewrite !app_nil_r.
  - rewrite url_classifier_cons, IH.
    destruct v; simpl; rewrite <-?app_assoc; done.
Qed.

(** C4. [url_classifier] appends the strings of its input to [ready_queue]
    and the dictionaries to [not_request_queue], each in input order; every
    other item is printed and enters neither queue.  From empty queues, the
    input [["http://a", {"status": 404}, 123]] leaves [["http://a"]] in the
    first, [[{"status": 404}]] in the second, and 123 only in the output. *)
Theorem url_classifier_partitions (result : list pyvalue) (s : session) :
  ready_queue (url_classifier result s) = ready_queue s ++ strings_of result ∧
  not_request_queue (url_classifier result s)
    = not_request_queue s ++ dicts_of result ∧
  stdout (url_classifier result s)
    = stdout s ++ (TypeMismatch <$> others_of result) ∧
  gathered (url_classifier result s) = gathered s ∧
  url_classifier [PyStr "http://a"; PyDict [("status", 404)]; PyInt 123] fresh
    = Session ["http://a"] [[("status", 404)]] [TypeMismatch (PyInt 123)] [].
Proof.
  rewrite url_classifier_queues. simpl. by split_and!.
Qed.

(** C9, as the claim has it, fails: the queues are module-level deques that
    are only ever appended to, so a second call on the same input does not
    leave them as the first call did. *)
Lemma url_classifier_second_call_differs :
  ready_queue (url_classifier [PyStr "http://a"] fresh) = ["http://a"] ∧
  ready_queue (url_classifier [PyStr "http://a"]
                 (url_classifier [PyStr "http://a"] fresh))
    = ["http://a"; "http://a"].
Proof. done. Qed.

(** C9, as the code has it.  What a call appends to each queue is a
    function of its input alone, whatever the queues held before; the
    queues themselves accumulate, so after two calls on the same input
    every classified item is there twice. *)
Theorem url_classifier_appends_same_items (result : list pyvalue) (s : session) :
  let once := url_classifier result s in
  let twice := url_classifier result once in
  ready_queue once = ready_queue s ++ strings_of result ∧
  not_request_queue once = not_request_queue s ++ dicts_of result ∧
  ready_queue twice = ready_queue s ++ strings_of result ++ strings_of result ∧
  not_request_queue twice
    = not_request_queue s ++ dicts_of result ++ dicts_of result.
Proof.
  simpl. rewrite !url_classifier_queues. simpl. by rewrite <-!app_assoc.
Qed.

(** ** Fetcher *)

(** C5, as the claim has it, fails: a transport failure leaves
    [async_request_status] as an exception. *)
Lemma async_request_status_raises :
  async_request_status (λ _, Returned PyNone)
    (λ _, TransportFailure "timeout") "http://a"
  = Raised (ClientError "timeout").
Proof. done. Qed.

(** C5, as the code has it.  [async_request_status] returns the URL for
    status 200 and [{"status": code}] for any other status; a transport
    failure is not caught and reaches the caller as an exception.  Only a
    caller that gathers with [return_exceptions=True] gets it back as an
    item of the result list, and [url_classifier] then prints that item and
    puts it in neither queue. *)
Theorem async_request_status_outcomes
    (json : string → outcome pyvalue) (net : string → reply) (url : string) :
  async_request_status json net url =
    match net url with
    | Response status _ =>
        Returned (if decide (status = 200) then PyStr url
                  else PyDict [("status", status)])
    | TransportFailure reason => Raised (ClientError reason)
    end ∧
  ∀ e s,
    url_classifier (gather_return_exceptions [Raised e]) s =
    Session (ready_queue s) (not_request_queue s)
            (stdout s ++ [TypeMismatch (PyExc e)]) (gathered s).
Proof.
  split; [|done].
  unfold async_request_status, async_type. by destruct (net url).
Qed.

(** ** Batched dispatch *)

Lemma batches_as_chunks node batch_size :
  0 < batch_size →
  batches node batch_size =
  Returned ((λ j, take (Z.to_nat batch_size) (drop (j * Z.to_nat batch_size) node))
              <$> seq 0 (Z.to_nat ((Z.of_nat (length node) + batch_size - 1)
                                     `div` batch_size))).
Proof.
  intros Hpos. unfold batches, range0.
  rewrite decide_False by lia. rewrite decide_False by lia.
  f_equal. unfold seqZ. rewrite <-!list_fmap_compose.
  apply list_fmap_ext. intros _ j _. unfold slice. simpl.
  rewrite Z.add_0_r. rewrite Z2Nat.inj_mul by lia. rewrite Nat2Z.id.
  f_equal. f_equal. ring.
Qed.

Lemma chunks_join (b k : nat) (node : list string) :
  (length node ≤ k * b)%nat →
  mjoin ((λ j, take b (drop (j * b) node)) <$> seq 0 k) = node.
Proof.
  revert node. induction k as [|k IH]; intros node Hlen.
  - destruct node; [done|simpl in Hlen; lia].
  - simpl. rewrite <-fmap_S_seq, <-list_fmap_compose.
    rewrite <-(take_drop b node) at 2. f_equal.
    rewrite <-(IH (drop b node)) by (rewrite length_drop; lia).
    f_equal. apply list_fmap_ext. intros _ j _. simpl.
    by rewrite drop_drop.
Qed.

(** The batches of a bundle, for a positive batch size: in order they make
    up the bundle, none is empty, none is longer than [batch_size], and all
    but the last have exactly [batch_size] URLs. *)
Lemma batches_spec node batch_size :
  0 < batch_size →
  ∃ bl, batches node batch_size = Returned bl ∧
        mjoin bl = node ∧
        ∀ i batch, bl !! i = Some batch →
          (0 < length batch ≤ Z.to_nat batch_size)%nat ∧
          ((S i < length bl)%nat → length batch = Z.to_nat batch_size).
Proof.
  intros Hpos. eexists. split; [by apply batches_as_chunks|].
  set (b := Z.to_nat batch_size).
  set (k := Z.to_nat ((Z.of_nat (length node) + batch_size - 1) `div` batch_size)).
  assert (length node ≤ k * b ∧ (0 < length node → (k - 1) * b < length node))%nat
    as [Hup Hlow].
  { pose proof (Z.div_mod (Z.of_nat (length node) + batch_size - 1) batch_size).
    pose proof (Z.mod_pos_bound (Z.of_nat (length node) + batch_size - 1) batch_size).
    assert (0 ≤ (Z.of_nat (length node) + batch_size - 1) `div` batch_size)
      by (apply Z.div_pos; lia).
    subst k b. split; [nia|]. intros Hl.
    assert (0 < (Z.of_nat (length node) + batch_size - 1) `div` batch_size)
      by (apply Z.div_str_pos; lia).
    nia. }
  split; [by apply chunks_join|].
  intros i batch Hi.
  apply list_lookup_fmap_Some in Hi as (j & -> & Hj).
  apply lookup_seq in Hj as [-> Hj]. simpl in *.
  rewrite length_fmap, length_seq, length_take, length_drop.
  assert (0 < length node)%nat.
  { destruct node; simpl in *; [|lia]. subst k.
    rewrite Z.div_small in Hj by lia. simpl in Hj. lia. }
  assert (0 < b)%nat by (subst b; lia).
  split; [nia|]. intros Hlt. nia.
Qed.

Lemma make_tasks_unbound json net name batch :
  name ∉ ARAH_attributes → batch ≠ [] →
  make_tasks (ARAH_call json net name) batch = Raised (AttributeError name).
Proof.
  intros Hname Hbatch. destruct batch as [|url batch]; [done|].
  simpl. unfold ARAH_call. by rewrite decide_False.
Qed.

Lemma make_tasks_status json net batch :
  make_tasks (ARAH_call json net "async_request_status") batch =
  Returned (async_request_status json net <$> batch).
Proof.
  induction batch as [|url batch IH]; [done|].
  simpl. rewrite IH. done.
Qed.

Lemma batches_nil batch_size : 0 < batch_size → batches [] batch_size = Returned [].
Proof.
  intros Hpos. rewrite batches_as_chunks by done. simpl.
  rewrite Z.div_small by lia. done.
Qed.

Lemma batches_first_nonempty node batch_size :
  0 < batch_size → node ≠ [] →
  ∃ batch bl, batches node batch_size = Returned (batch :: bl) ∧ batch ≠ [].
Proof.
  intros Hpos Hnode.
  destruct (batches_spec node batch_size Hpos) as (bl & Hbl & Hjoin & Hlen).
  destruct bl as [|batch bl]; [by subst|].
  exists batch, bl. split; [done|].
  destruct (Hlen 0%nat batch eq_refl) as [Hb _].
  intros ->. simpl in Hb. lia.
Qed.

Lemma asnyc_request_unbound : "asnyc_request" ∉ ARAH_attributes.
Proof. apply (bool_decide_unpack _). by vm_compute. Qed.

(** C6.  What [aiorequest_injection] does when the queue holds a bundle
    with a URL in it and the batch size is positive: it pops bundles from
    the right, passing empty ones, and at the first bundle that is not empty
    it builds the first batch and then raises [AttributeError], because the
    class has no attribute [asnyc_request].  No batch is gathered, nothing
    is classified, and the bundles to the left stay in the queue. *)
Theorem aiorequest_injection_attribute_error
    (json : string → outcome pyvalue) (net : string → reply)
    (before after : list (list string)) (node : list string)
    (batch_size : Z) (s : session) :
  0 < batch_size → node ≠ [] → Forall (λ bundle, bundle = []) after →
  aiorequest_injection json net (before ++ node :: after) batch_size s =
  (Raised (AttributeError "asnyc_request"),
   Session (ready_queue s) (not_request_queue s)
           (stdout s ++ [BundleNotice (length node)]) (gathered s),
   before).
Proof.
  intros Hpos Hnode Hafter. unfold aiorequest_injection, dispatch_with.
  rewrite rev_app_distr. simpl. rewrite <-app_assoc. simpl.
  assert (Forall (λ bundle, bundle = []) (rev after)) as Hrev.
  { rewrite Forall_forall in Hafter |- *. intros x Hx. apply Hafter.
    by apply list_elem_of_In, in_rev, list_elem_of_In. }
  induction Hrev as [|bundle stack -> _ IH]; simpl.
  - rewrite decide_True by (destruct node; simpl; [done|lia]).
    destruct (batches_first_nonempty node batch_size Hpos Hnode)
      as (batch & bl & -> & Hbatch).
    simpl. rewrite make_tasks_unbound by (done || apply asnyc_request_unbound).
    by rewrite rev_involutive.
  - apply IH.
Qed.

Lemma aiorequest_injection_attribute_error_witness :
  aiorequest_injection (λ _, Returned PyNone) (λ _, Response 200 "")
    [["http://a"]; ["http://b"; "http://c"]; []] 2 fresh =
  (Raised (AttributeError "asnyc_request"),
   Session [] [] [BundleNotice 2] [], [["http://a"]]).
Proof.
  apply (aiorequest_injection_attribute_error (λ _, Returned PyNone)
           (λ _, Response 200 "") [["http://a"]] [[]] ["http://b"; "http://c"]
           2 fresh).
  - reflexivity.
  - discriminate.
  - repeat constructor.
Defined.

Example aiorequest_injection_seven_urls :
  aiorequest_injection (λ _, Returned PyNone) (λ _, Response 200 "")
    [["u1"; "u2"; "u3"; "u4"; "u5"; "u6"; "u7"]] 3 fresh =
  (Raised (AttributeError "asnyc_request"),
   Session [] [] [BundleNotice 7] [], []).
Proof. vm_compute. reflexivity. Qed.

Lemma for_batches_status json net bs s :
  ∃ s', for_batches (ARAH_call json net "async_request_status") bs s
          = (Returned (), s') ∧
        gathered s' = gathered s ++ bs.
Proof.
  revert s. induction bs as [|batch bs IH]; intros s; simpl.
  - exists s. by rewrite app_nil_r.
  - rewrite make_tasks_status.
    edestruct IH as (s' & -> & Hg). exists s'. split; [done|].
    rewrite Hg, url_classifier_queues. simpl. by rewrite <-app_assoc.
Qed.

(** With [async_request_status] in place of the unbound name the
    dispatcher runs the queue empty from the right and gathers, bundle by
    bundle, the batches described by [batches_spec]. *)
Lemma dispatch_with_status json net start batch_size s :
  0 < batch_size →
  ∃ s' bls,
    dispatch_with "async_request_status" json net start batch_size s
      = (Returned (), s', []) ∧
    Forall2 (λ node bl, batches node batch_size = Returned bl) (rev start) bls ∧
    gathered s' = gathered s ++ mjoin bls.
Proof.
  intros Hpos. unfold dispatch_with.
  generalize (rev start) as stack. intros stack. revert s.
  induction stack as [|node stack IH]; intros s; simpl.
  - exists s, []. split_and!; [done|constructor|by rewrite app_nil_r].
  - destruct (decide (0 < length node)%nat) as [Hlen|Hlen].
    + destruct (batches_spec node batch_size Hpos) as (bl & Hbl & _).
      rewrite Hbl.
      edestruct (for_batches_status json net bl) as (s1 & -> & Hg1).
      destruct (IH s1) as (s' & bls & Hrun & Hall & Hg).
      destruct (while_start _ _ stack s1) as [[o s2] rest].
      injection Hrun as -> -> Hrest.
      exists s', (bl :: bls). split_and!.
      * by rewrite Hrest.
      * by constructor.
      * rewrite Hg, Hg1. simpl. by rewrite <-app_assoc.
    + assert (node = []) as -> by (destruct node; simpl in *; [done|lia]).
      destruct (IH s) as (s' & bls & Hrun & Hall & Hg).
      destruct (while_start _ _ stack s) as [[o s2] rest].
      injection Hrun as -> -> Hrest.
      exists s', ([] :: bls). split_and!.
      * by rewrite Hrest.
      * constructor; [by apply batches_nil|done].
      * done.
Qed.

Example dispatch_with_status_seven_urls :
  gathered (dispatch_with "async_request_status" (λ _, Returned PyNone)
              (λ _, Response 200 "")
              [["x"]; ["u1"; "u2"; "u3"; "u4"; "u5"; "u6"; "u7"]] 3 fresh).1.2
  = [["u1"; "u2"; "u3"]; ["u4"; "u5"; "u6"]; ["u7"]; ["x"]].
Proof. vm_compute. reflexivity. Qed.

(** ** Bounded crawler *)

Lemma enqueue_links_effect depth order c :
  ∃ added,
    enqueue_links depth order c =
      {| start_url := start_url c; max_pages := max_pages c;
         max_depth := max_depth c; visited_urls := visited_urls c;
         url_queue := url_queue c ++ added; results := results c |} ∧
    Forall (λ entry, entry.2 = depth + 1) added.
Proof.
  unfold enqueue_links. revert c.
  induction order as [|link order IH]; intros c; simpl.
  - exists []. rewrite app_nil_r. by destruct c.
  - destruct (decide (link ∈ visited_urls c)) as [Hin|Hnin]; [apply IH|].
    destruct (IH (put (link, depth + 1) c)) as (added & -> & Hadded).
    exists ((link, depth + 1) :: added). simpl.
    rewrite <-app_assoc. split; [done|]. by constructor.
Qed.

Section CrawlerFacts.

Variable url_addition : string → string → string.
Variable anchors : string → list string.

#[local] Abbreviation parse_links := (Search.parse_links url_addition anchors).
#[local] Abbreviation crawl_resume := (Search.crawl_resume url_addition anchors).
#[local] Abbreviation step := (Search.step url_addition anchors).
#[local] Abbreviation reachable_from := (Search.reachable_from url_addition anchors).

(** A property of the shared crawler object that the constructor
    establishes and both halves of the loop body keep holds throughout. *)
Lemma crawl_invariant (P : crawler → Prop) s0 st :
  P (shared s0) →
  (∀ c, P c → P (crawl_iteration c).2) →
  (∀ c current_url depth content order,
     P c → P (crawl_resume current_url depth content order c)) →
  reachable_from s0 st → P (shared st).
Proof.
  intros H0 Hiter Hres Hreach. unfold Search.reachable_from in Hreach.
  revert st Hreach. apply (rtc_ind_r (λ st, P (shared st))); [done|].
  intros st st' _ Hstep IH. destruct Hstep; simpl in *; auto.
Qed.

Lemma crawl_iteration_bounds c :
  max_pages (crawl_iteration c).2 = max_pages c ∧
  max_depth (crawl_iteration c).2 = max_depth c ∧
  results (crawl_iteration c).2 = results c ∧
  url_queue (crawl_iteration c).2 `suffix_of` url_queue c.
Proof.
  unfold crawl_iteration. destruct (url_queue c) as [|[u d] rest] eqn:Hq.
  - simpl. by rewrite Hq.
  - repeat case_decide; simpl; rewrite ?Hq; split_and!; try done;
      by apply suffix_cons_r.
Qed.

Lemma crawl_iteration_visited c :
  Z.of_nat (size (visited_urls c)) ≤ Z.max 0 (max_pages c) →
  Z.of_nat (size (visited_urls (crawl_iteration c).2)) ≤ Z.max 0 (max_pages c).
Proof.
  intros Hc. unfold crawl_iteration. destruct (url_queue c) as [|[u d] rest]; [done|].
  destruct (decide (Z.of_nat (size (visited_urls c)) < max_pages c)) as [Hlt|]; [|done].
  destruct (decide (u ∈ visited_urls c ∨ d > max_depth c)) as [|Hfresh]; [done|].
  simpl. rewrite size_union by set_solver. rewrite size_singleton. lia.
Qed.

Lemma crawl_resume_fields current_url depth content order c :
  max_pages (crawl_resume current_url depth content order c) = max_pages c ∧
  max_depth (crawl_resume current_url depth content order c) = max_depth c ∧
  visited_urls (crawl_resume current_url depth content order c) = visited_urls c.
Proof.
  unfold crawl_resume. repeat case_decide; try done.
  edestruct enqueue_links_effect as (added & -> & _). done.
Qed.

Lemma crawl_resume_queue current_url depth content order c :
  ∃ added,
    url_queue (crawl_resume current_url depth content order c)
      = url_queue c ++ added ∧
    Forall (λ entry, entry.2 ≤ max_depth c) added.
Proof.
  unfold crawl_resume. destruct (decide (content = "")).
  { exists []. by rewrite app_nil_r. }
  destruct (decide (depth < max_depth c)) as [Hlt|].
  - edestruct enqueue_links_effect as (added & -> & Hadded).
    exists added. split; [done|]. eapply Forall_impl; [done|].
    intros entry ->. lia.
  - exists []. by rewrite app_nil_r.
Qed.

Lemma parse_links_elem content base_url l :
  l ∈ parse_links content base_url ↔
  ∃ href, href ∈ anchors content ∧
          l = (if startswith "/" href then url_addition base_url href else href) ∧
          startswith "http" l = true.
Proof.
  unfold Search.parse_links.
  assert (∀ hrefs (acc : gset string),
    l ∈ foldl (λ links link,
                 let link := if startswith "/" link
                             then url_addition base_url link else link in
                 if startswith "http" link then {[link]} ∪ links else links)
              acc hrefs ↔
    l ∈ acc ∨
    ∃ href, href ∈ hrefs ∧
            l = (if startswith "/" href then url_addition base_url href else href) ∧
            startswith "http" l = true) as Hfold.
  { induction hrefs as [|href hrefs IH]; intros acc; simpl.
    - split; [by left|]. intros [?|(href & []%elem_of_nil & _)]. done.
    - rewrite IH. clear IH.
      set (link := if startswith "/" href then url_addition base_url href else href).
      split.
      + intros [Hacc|(h & Hh & Hl & Hs)].
        * destruct (startswith "http" link) eqn:Hlink; [|by left].
          apply elem_of_union in Hacc as [->%elem_of_singleton|?]; [|by left].
          right. exists href. split_and!; [by left|done|done].
        * right. exists h. split_and!; [by right|done|done].
      + intros [Hacc|(h & [->|Hh]%elem_of_cons & Hl & Hs)].
        * left. destruct (startswith "http" link); [set_solver|done].
        * left. fold link in Hl. subst l. rewrite Hs. set_solver.
        * right. by exists h. }
  rewrite Hfold. split; [intros [[]%not_elem_of_empty|?]; done|by right].
Qed.

(** Whatever the queue and the tasks are, steps keep the visited set within
    the bound once it is within it. *)
Lemma visited_urls_bound_kept (c0 : crawler) (ts : list task) (st : system) :
  Z.of_nat (size (visited_urls c0)) ≤ Z.max 0 (max_pages c0) →
  reachable_from (System c0 ts) st →
  Z.of_nat (size (visited_urls (shared st))) ≤ Z.max 0 (max_pages c0).
Proof.
  intros H0 Hreach.
  cut (max_pages (shared st) = max_pages c0 ∧
       Z.of_nat (size (visited_urls (shared st))) ≤ Z.max 0 (max_pages c0));
    [tauto|].
  revert Hreach.
  apply (crawl_invariant
           (λ c, max_pages c = max_pages c0 ∧
                 Z.of_nat (size (visited_urls c)) ≤ Z.max 0 (max_pages c0))).
  - done.
  - intros c [Hp Hv]. destruct (crawl_iteration_bounds c) as (-> & _).
    split; [done|]. rewrite <-Hp in *. by apply crawl_iteration_visited.
  - intros c u d content order [Hp Hv].
    destruct (crawl_resume_fields u d content order c) as (-> & _ & ->). done.
Qed.

(** C2, as the code has it.  The [while] test, the [get], the membership
    test and the [add] run without another task in between, so a URL is only
    added while fewer than [max_pages] are visited: in every reachable state
    the visited set has at most [max_pages] elements when [max_pages] is not
    negative, and stays empty when it is negative, whatever the queue
    holds. *)
Theorem visited_urls_bounded
    (start : string) (pages depth : Z) (num_tasks : nat) (st : system) :
  reachable_from (run_start start pages depth num_tasks) st →
  Z.of_nat (size (visited_urls (shared st))) ≤ Z.max 0 pages.
Proof.
  intros Hreach.
  apply (visited_urls_bound_kept (new_crawler start pages depth)
           (replicate num_tasks AtLoopTest) st); [|done].
  change (Z.of_nat (size (∅ : gset string)) ≤ Z.max 0 pages).
  rewrite size_empty. lia.
Qed.

(** C3, as the code has it.  A task enqueues [(link, depth + 1)] only when
    [depth < max_depth], and the constructor enqueues the seed at depth 0:
    in every reachable state no entry of the queue is deeper than
    [max_depth] when [max_depth] is not negative, and none is deeper than 0
    when it is negative. *)
Theorem url_queue_depth_bounded
    (start : string) (pages depth : Z) (num_tasks : nat) (st : system) :
  reachable_from (run_start start pages depth num_tasks) st →
  Forall (λ entry, entry.2 ≤ Z.max 0 depth) (url_queue (shared st)).
Proof.
  intros Hreach.
  cut (max_depth (shared st) = depth ∧
       Forall (λ entry, entry.2 ≤ Z.max 0 depth) (url_queue (shared st)));
    [tauto|].
  revert Hreach.
  apply (crawl_invariant
           (λ c, max_depth c = depth ∧
                 Forall (λ entry, entry.2 ≤ Z.max 0 depth) (url_queue c))).
  - simpl. split; [done|]. repeat constructor. simpl. lia.
  - intros c [Hd Hq]. destruct (crawl_iteration_bounds c) as (_ & -> & _ & Hsuf).
    split; [done|]. destruct Hsuf as [front Hfront].
    rewrite Hfront in Hq. by apply Forall_app in Hq as [_ ?].
  - intros c u d content order [Hd Hq].
    destruct (crawl_resume_fields u d content order c) as (_ & -> & _).
    split; [done|].
    destruct (crawl_resume_queue u d content order c) as (added & -> & Hadded).
    apply Forall_app. split; [done|].
    eapply Forall_impl; [done|]. simpl. intros entry. lia.
Qed.

(** C10.  [parse_links] keeps exactly the links that start with [http],
    after a link that starts with a slash has been replaced by its
    resolution against the base URL; every other link is left out.  The
    result map only ever receives sets that [parse_links] returned, so in
    every reachable state all links in its values start with [http]. *)
Theorem parse_links_http_only
    (start : string) (pages depth : Z) (num_tasks : nat) (st : system) :
  reachable_from (run_start start pages depth num_tasks) st →
  (∀ content base_url l,
     l ∈ parse_links content base_url ↔
     ∃ href, href ∈ anchors content ∧
             l = (if startswith "/" href then url_addition base_url href
                  else href) ∧
             startswith "http" l = true) ∧
  (∀ url links l,
     results (shared st) !! url = Some links → l ∈ links →
     startswith "http" l = true).
Proof.
  intros Hreach. split; [apply parse_links_elem|].
  revert Hreach.
  apply (crawl_invariant
           (λ c, ∀ url links l, results c !! url = Some links → l ∈ links →
                                startswith "http" l = true)).
  - simpl. intros url links l Hl. by rewrite lookup_empty in Hl.
  - intros c Hc. by destruct (crawl_iteration_bounds c) as (_ & _ & -> & _).
  - intros c u d content order Hc url links l.
    unfold Search.crawl_resume. repeat case_decide; try apply Hc.
    edestruct enqueue_links_effect as (added & -> & _). simpl.
    destruct (decide (u = url)) as [->|Hne].
    + rewrite lookup_insert_eq. intros [= <-] Hl.
      by apply parse_links_elem in Hl as (href & _ & _ & ?).
    + rewrite lookup_insert_ne by done. apply Hc.
Qed.

End CrawlerFacts.

Lemma session2_reachable : reachable_from join_url one_page session0 session2.
Proof.
  apply (rtc_l _ _ session1).
  - apply (step_iteration join_url one_page 0%nat). reflexivity.
  - apply rtc_once.
    apply (step_content join_url one_page 0%nat _ _ "http://x/" 0
             (λ _, Returned PyNone) (λ _, Response 200 "<home>") "<home>").
    + by vm_compute.
    + reflexivity.
    + reflexivity.
Defined.

Lemma visited_urls_bounded_witness :
  reachable_from join_url one_page (run_start "http://x/" 5 1 2) session2 ∧
  Z.of_nat (size (visited_urls (shared session2))) ≤ Z.max 0 5.
Proof.
  split; [exact session2_reachable|].
  exact (visited_urls_bounded join_url one_page "http://x/" 5 1 2 session2
           session2_reachable).
Defined.

(** C2, as the claim has it, fails for a negative bound: the empty visited
    set of the start state already has more than [-1] elements. *)
Lemma visited_urls_exceeds_negative_bound :
  reachable_from join_url one_page
    (run_start "http://x/" (-1) 1 4) (run_start "http://x/" (-1) 1 4) ∧
  max_pages (shared (run_start "http://x/" (-1) 1 4)) = -1 ∧
  ¬ Z.of_nat (size (visited_urls (shared (run_start "http://x/" (-1) 1 4)))) ≤ -1.
Proof.
  split_and!; [apply rtc_refl|done|].
  change (¬ Z.of_nat (size (∅ : gset string)) ≤ -1). rewrite size_empty. lia.
Qed.

Lemma url_queue_depth_bounded_witness :
  reachable_from join_url one_page (run_start "http://x/" 5 1 2) session2 ∧
  Forall (λ entry, entry.2 ≤ Z.max 0 1) (url_queue (shared session2)).
Proof.
  split; [exact session2_reachable|].
  exact (url_queue_depth_bounded join_url one_page "http://x/" 5 1 2 session2
           session2_reachable).
Defined.

(** C3, as the claim has it, fails for a negative bound: the constructor
    enqueues the seed at depth 0, which is deeper than [-1]. *)
Lemma url_queue_seed_exceeds_negative_bound :
  reachable_from join_url one_page
    (run_start "http://x/" 5 (-1) 4) (run_start "http://x/" 5 (-1) 4) ∧
  max_depth (shared (run_start "http://x/" 5 (-1) 4)) = -1 ∧
  ("http://x/", 0) ∈ url_queue (shared (run_start "http://x/" 5 (-1) 4)) ∧
  ¬ 0 ≤ -1.
Proof.
  split_and!; [apply rtc_refl|done|by left|lia].
Qed.

Example session2_result :
  results (shared session2) !! "http://x/"
    = Some (parse_links join_url one_page "<home>" "http://x/") ∧
  elements (parse_links join_url one_page "<home>" "http://x/")
    ≡ₚ ["http://x/a"; "http://y/"] ∧
  url_queue (shared session2) ≡ₚ [("http://x/a", 1); ("http://y/", 1)].
Proof.
  split_and!.
  - by vm_compute.
  - vm_compute. reflexivity || apply perm_swap.
  - vm_compute. reflexivity || apply perm_swap.
Qed.

Lemma parse_links_http_only_witness :
  reachable_from join_url one_page (run_start "http://x/" 5 1 2) session2 ∧
  results (shared session2) !! "http://x/"
    = Some (parse_links join_url one_page "<home>" "http://x/") ∧
  "http://x/a" ∈ parse_links join_url one_page "<home>" "http://x/" ∧
  startswith "http" "http://x/a" = true.
Proof.
  assert ("http://x/a" ∈ parse_links join_url one_page "<home>" "http://x/") as Hin.
  { apply (bool_decide_unpack _). by vm_compute. }
  assert (results (shared session2) !! "http://x/"
          = Some (parse_links join_url one_page "<home>" "http://x/")) as Hres.
  { by vm_compute. }
  split_and!; [exact session2_reachable|exact Hres|exact Hin|].
  exact (proj2 (parse_links_http_only join_url one_page "http://x/" 5 1 2 session2
                  session2_reachable) _ _ _ Hres Hin).
Defined.

(** * Further properties *)

(** ** Seed queue *)

Lemma bfs_last_bundle_start fuel num element :
  bfs_last_bundle (S fuel) num element =
  Some match default [] (element !! num) with
       | [] => Raised IndexError
       | urls => Returned urls
       end.
Proof.
  unfold bfs_last_bundle. rewrite iterative_bfs_start_only.
  by destruct (default [] (element !! num)).
Qed.

Lemma for_keys_appends fuel element nums q :
  ∃ o added,
    for_keys (S fuel) element nums q = Some (o, q ++ added) ∧
    (o = Returned () ∨ o = Raised IndexError) ∧
    Forall (λ urls, urls ≠ [] ∧ ∃ num, num ∈ nums ∧ element !! num = Some urls)
           added.
Proof.
  revert q. induction nums as [|num nums IH]; intros q.
  - exists (Returned ()), []. rewrite app_nil_r. by split_and!; [|left|].
  - cbn [for_keys]. rewrite bfs_last_bundle_start.
    destruct (element !! num) as [[|v urls]|] eqn:Hnum; simpl.
    + exists (Raised IndexError), []. rewrite app_nil_r. by split_and!; [|right|].
    + destruct (IH (q ++ [v :: urls])) as (o & added & -> & Ho & Hadded).
      exists o, ((v :: urls) :: added). rewrite <-app_assoc. split_and!; [done..|].
      constructor.
      * split; [done|]. exists num. split; [by left|done].
      * eapply Forall_impl; [done|]. intros urls' (? & n & ? & ?).
        split; [done|]. exists n. split; [by right|done].
    + exists (Raised IndexError), []. rewrite app_nil_r. by split_and!; [|right|].
Qed.

Lemma for_locations_appends fuel tree dfs q :
  ∃ added,
    for_locations (S fuel) tree dfs q = Some (Returned (), q ++ added) ∧
    Forall (λ urls, urls ≠ [] ∧
                    ∃ location element num,
                      location ∈ dfs ∧ tree !! location = Some element ∧
                      (list_to_map element : gmap Z (list pyvalue)) !! num
                        = Some urls)
           added.
Proof.
  revert q. induction dfs as [|location dfs IH]; intros q.
  - exists []. by rewrite app_nil_r.
  - cbn [for_locations]. destruct (tree !! location) as [element|] eqn:Hloc.
    + destruct (for_keys_appends fuel (list_to_map element) element.*1 q)
        as (o & added & -> & Ho & Hadded).
      destruct (IH (q ++ added)) as (added' & Hrun & Hadded').
      exists (added ++ added'). rewrite app_assoc. split.
      { by destruct Ho as [-> | ->]. }
      apply Forall_app. split.
      * eapply Forall_impl; [done|]. intros urls (? & num & _ & ?).
        split; [done|]. exists location, element, num. split; [by left|done].
      * eapply Forall_impl; [done|]. intros urls (? & l & e & n & ? & ?).
        split; [done|]. exists l, e, n. split; [by right|done].
    + destruct (IH q) as (added & -> & Hadded). exists added. split; [done|].
      eapply Forall_impl; [done|]. intros urls (? & l & e & n & ? & ?).
      split; [done|]. exists l, e, n. split; [by right|done].
Qed.

(** X1.  [deep_dive_search] returns a queue for every tree: a location
    without payload and an empty bundle are passed over, never raised.
    Every bundle of the queue has at least one entry and is the bundle of a
    sub-key of a location that is reachable from location 1. *)
Theorem deep_dive_search_returns_nonempty_bundles
    (fuel : nat) (tree : gmap Z (list (Z * list pyvalue))) :
  ∃ starting_queue,
    deep_dive_search (S fuel) tree = Some (Returned starting_queue) ∧
    Forall (λ urls, urls ≠ [] ∧
                    ∃ location element num,
                      reachable (subkeys tree) 1 location ∧
                      tree !! location = Some element ∧
                      (list_to_map element : gmap Z (list pyvalue)) !! num
                        = Some urls)
           starting_queue.
Proof.
  unfold deep_dive_search.
  destruct (recursive_dfs_returns (subkeys tree) 1 None) as (dfs & -> & Hloop).
  destruct (dfs_loop_from_start _ _ _ Hloop) as [_ Hreach].
  destruct (for_locations_appends fuel tree dfs []) as (added & -> & Hadded).
  exists added. split; [done|].
  eapply Forall_impl; [done|]. intros urls (? & l & e & n & Hl & ?).
  split; [done|]. exists l, e, n. split; [by apply Hreach|done].
Qed.

Lemma for_keys_until_empty fuel (element : gmap Z (list pyvalue)) items q :
  (∀ num urls, (num, urls) ∈ items → element !! num = Some urls) →
  ∃ o, for_keys (S fuel) element items.*1 q
         = Some (o, q ++ bundles_until_empty items) ∧
       (o = Returned () ∨ o = Raised IndexError).
Proof.
  revert q. induction items as [|[num urls] items IH]; intros q Hitems.
  - exists (Returned ()). rewrite app_nil_r. split; [done|by left].
  - cbn [for_keys fmap list_fmap fst]. rewrite bfs_last_bundle_start.
    rewrite (Hitems num urls) by (by left). simpl.
    destruct urls as [|v urls].
    + exists (Raised IndexError). rewrite app_nil_r. split; [done|by right].
    + destruct (IH (q ++ [v :: urls])) as (o & -> & Ho).
      { intros n u Hn. apply Hitems. by right. }
      exists o. by rewrite <-app_assoc.
Qed.

Lemma for_locations_until_empty fuel tree dfs q :
  distinct_keys tree →
  for_locations (S fuel) tree dfs q =
  Some (Returned (),
        q ++ flat_map (λ location, bundles_until_empty (default [] (tree !! location)))
               dfs).
Proof.
  intros Hkeys. revert q. induction dfs as [|location dfs IH]; intros q.
  - by rewrite app_nil_r.
  - cbn [for_locations flat_map].
    destruct (tree !! location) as [element|] eqn:Hloc; simpl; [|apply IH].
    destruct (for_keys_until_empty fuel (list_to_map element) element q)
      as (o & -> & Ho).
    { intros num urls Hin. apply elem_of_list_to_map_1; [|done].
      by apply (map_Forall_lookup_1 _ _ _ _ Hkeys Hloc). }
    rewrite app_assoc. destruct Ho as [-> | ->]; apply IH.
Qed.

(** X2.  When the keys of every payload map are distinct, the queue that
    [deep_dive_search] returns lists, location by location in the order of
    [recursive_dfs(1, tree)], the bundles of the location's sub-keys in
    order up to the first empty bundle: an empty bundle ends the location,
    and the sub-keys after it contribute nothing. *)
Theorem deep_dive_search_bundles_until_empty
    (fuel : nat) (tree : gmap Z (list (Z * list pyvalue))) :
  distinct_keys tree →
  ∃ dfs,
    recursive_dfs 1 (subkeys tree) None = Some dfs ∧
    deep_dive_search (S fuel) tree =
    Some (Returned
            (flat_map (λ location,
                         bundles_until_empty (default [] (tree !! location)))
                      dfs)).
Proof.
  intros Hkeys. unfold deep_dive_search.
  destruct (recursive_dfs_returns (subkeys tree) 1 None) as (dfs & -> & _).
  exists dfs. split; [done|]. by rewrite for_locations_until_empty.
Qed.

Lemma sample_tree_distinct_keys : distinct_keys sample_tree.
Proof. apply (bool_decide_unpack _). by vm_compute. Defined.

Lemma deep_dive_search_bundles_until_empty_witness :
  distinct_keys sample_tree ∧
  ∃ dfs,
    recursive_dfs 1 (subkeys sample_tree) None = Some dfs ∧
    deep_dive_search 1 sample_tree =
    Some (Returned
            (flat_map (λ location,
                         bundles_until_empty (default [] (sample_tree !! location)))
                      dfs)).
Proof.
  split; [exact sample_tree_distinct_keys|].
  exact (deep_dive_search_bundles_until_empty 0 sample_tree
           sample_tree_distinct_keys).
Defined.

Example deep_dive_search_sample :
  recursive_dfs 1 (subkeys sample_tree) None = Some [1; 2; 4; 5; 6; 3] ∧
  deep_dive_search 1 sample_tree =
  Some (Returned [[PyStr "http://a"]; [PyStr "http://b"; PyStr "http://c"];
                  [PyStr "http://d"]]).
Proof. by vm_compute. Qed.

(** ** Depth-first ordering on arbitrary graphs *)

(** X3.  On every graph, with or without cycles, [recursive_dfs] from any
    node returns a list that starts with that node and holds exactly the
    nodes reachable from it; a node without an adjacency entry is a leaf. *)
Theorem recursive_dfs_visits_reachable (graph : gmap Z (list Z)) (node : Z) :
  ∃ order,
    recursive_dfs node graph None = Some order ∧
    head order = Some node ∧
    (∀ n, n ∈ order ↔ reachable graph node n) ∧
    (graph !! node = None → order = [node]).
Proof.
  destruct (recursive_dfs_returns graph node None) as (r & Hr & Hl).
  exists r. simpl in Hl. split_and!; [done| | |].
  - destruct (dfs_loop_prefix _ _ _ _ Hl) as [t ->]. done.
  - by apply dfs_loop_from_start.
  - intros Hnone. unfold children in Hl. rewrite Hnone in Hl. simpl in Hl.
    by inversion Hl.
Qed.

Lemma recursive_dfs_visits_reachable_witness :
  triangle !! 4 = None ∧
  ∃ order,
    recursive_dfs 4 triangle None = Some order ∧
    head order = Some 4 ∧
    (∀ n, n ∈ order ↔ reachable triangle 4 n) ∧
    order = [4].
Proof.
  assert (triangle !! 4 = None) as Hnone by reflexivity.
  split; [exact Hnone|].
  destruct (recursive_dfs_visits_reachable triangle 4)
    as (order & Hrun & Hhead & Hreach & Hleaf).
  exists order. split_and!; [exact Hrun|exact Hhead|exact Hreach|exact (Hleaf Hnone)].
Defined.

(** X4.  Called with a list of its own, [recursive_dfs] keeps that list as
    the front of the result, appends the node and then only nodes reachable
    from it; when the list has no repetition and does not hold the node,
    neither has the result, so nothing the caller listed is visited again. *)
Theorem recursive_dfs_extends_discovered
    (graph : gmap Z (list Z)) (node : Z) (discovered : list Z) :
  NoDup discovered → node ∉ discovered →
  ∃ r,
    recursive_dfs node graph (Some discovered) = Some r ∧
    discovered ++ [node] `prefix_of` r ∧
    NoDup r ∧
    ∀ x, x ∈ r → x ∈ discovered ∨ reachable graph node x.
Proof.
  intros Hnd Hnode.
  destruct (recursive_dfs_returns graph node (Some discovered)) as (r & Hr & Hl).
  simpl in Hl. exists r. split_and!; [done| | |].
  - by eapply dfs_loop_prefix.
  - eapply dfs_loop_NoDup; [done|]. apply NoDup_app. split_and!; [done| |apply NoDup_singleton].
    intros x Hx ->%list_elem_of_singleton. done.
  - intros x Hx.
    destruct (dfs_loop_reach _ _ _ _ Hl x Hx)
      as [[?| ->%list_elem_of_singleton]%elem_of_app|(c & Hc & Hreach)].
    + by left.
    + right. apply rtc_refl.
    + right. by eapply rtc_l.
Qed.

Lemma recursive_dfs_extends_discovered_witness :
  NoDup [3; 5] ∧ (1 ∉ [3; 5]) ∧
  ∃ r,
    recursive_dfs 1 diamond (Some [3; 5]) = Some r ∧
    [3; 5] ++ [1] `prefix_of` r ∧
    NoDup r ∧
    ∀ x, x ∈ r → x ∈ [3; 5] ∨ reachable diamond 1 x.
Proof.
  assert (NoDup [3; 5]) as Hnd by (apply (bool_decide_unpack _); by vm_compute).
  assert (1 ∉ [3; 5]) as Hnin by (apply (bool_decide_unpack _); by vm_compute).
  split_and!; [exact Hnd|exact Hnin|].
  exact (recursive_dfs_extends_discovered diamond 1 [3; 5] Hnd Hnin).
Defined.

Example dfs_diamond_discovered :
  recursive_dfs 1 diamond (Some [3; 5]) = Some [3; 5; 1; 2; 4].
Proof. by vm_compute. Qed.

(** Every node the loop adds stands in the result behind everything that
    was discovered before, and is one of the nodes the loop was asked about
    or has a parent standing before it. *)
Lemma dfs_loop_parent_first graph ns d r :
  dfs_loop graph ns d r →
  ∀ x, x ∈ r → x ∉ d →
    ∃ before after,
      r = before ++ x :: after ∧
      (∀ y, y ∈ d → y ∈ before) ∧
      (x ∈ ns ∨ ∃ parent, parent ∈ before ∧ edge graph parent x).
Proof.
  induction 1 as [d|n ns d r Hin Hl IH|n ns d d' r Hnin Hl1 IH1 Hl2 IH2];
    intros x Hx Hxd.
  - done.
  - destruct (IH x Hx Hxd) as (before & after & -> & Hd & Hpar).
    exists before, after. split_and!; [done|done|].
    destruct Hpar as [?|?]; [left; by right|by right].
  - pose proof (dfs_loop_prefix _ _ _ _ Hl1) as [t1 Ht1].
    pose proof (dfs_loop_prefix _ _ _ _ Hl2) as [t2 Ht2].
    destruct (decide (x = n)) as [->|Hne].
    { exists d, (t1 ++ t2). split_and!; [|done|left; by left].
      rewrite Ht2, Ht1, <-!app_assoc. done. }
    destruct (decide (x ∈ d')) as [Hxd'|Hxd'].
    + destruct (IH1 x Hxd') as (before & after & Hd' & Hd & Hpar).
      { intros [?| ->%list_elem_of_singleton]%elem_of_app; done. }
      exists before, (after ++ t2). split_and!.
      * rewrite Ht2, Hd', <-app_assoc. done.
      * intros y Hy. apply Hd, elem_of_app. by left.
      * right. destruct Hpar as [Hchild|?]; [|done].
        exists n. split; [|done]. apply Hd, elem_of_app. right. by left.
    + destruct (IH2 x Hx Hxd') as (before & after & -> & Hd & Hpar).
      exists before, after. split_and!; [done| |].
      * intros y Hy. apply Hd. rewrite Ht1. apply elem_of_app. left.
        apply elem_of_app. by left.
      * destruct Hpar as [?|?]; [left; by right|by right].
Qed.

(** X5.  On every graph, each node of the list that [recursive_dfs] returns,
    other than the start node, stands behind one of its parents: a node is
    listed only after a node with an edge to it. *)
Theorem recursive_dfs_parent_first (graph : gmap Z (list Z)) (node : Z) :
  ∃ order,
    recursive_dfs node graph None = Some order ∧
    ∀ n, n ∈ order → n ≠ node →
      ∃ before after parent,
        order = before ++ n :: after ∧ parent ∈ before ∧ edge graph parent n.
Proof.
  destruct (recursive_dfs_returns graph node None) as (r & Hr & Hl).
  exists r. split; [done|]. simpl in Hl. intros n Hn Hne.
  destruct (dfs_loop_parent_first _ _ _ _ Hl n Hn)
    as (before & after & -> & Hd & Hpar).
  { by intros ?%list_elem_of_singleton. }
  exists before, after.
  destruct Hpar as [Hchild|(parent & ? & ?)]; [|by exists parent].
  exists node. split_and!; [done| |done]. apply Hd. by left.
Qed.

Lemma recursive_dfs_parent_first_witness :
  ∃ order,
    recursive_dfs 2 triangle None = Some order ∧
    ∃ before after parent,
      order = before ++ 1 :: after ∧ parent ∈ before ∧ edge triangle parent 1.
Proof.
  destruct (recursive_dfs_parent_first triangle 2) as (order & Hrun & Hpar).
  exists order. split; [exact Hrun|].
  apply Hpar; [|discriminate].
  assert (order = [2; 3; 1; 4]) as ->.
  { assert (recursive_dfs 2 triangle None = Some [2; 3; 1; 4]) as H by (by vm_compute).
    rewrite H in Hrun. by injection Hrun. }
  apply (bool_decide_unpack _). by vm_compute.
Defined.

(** ** Batched dispatch: batch sizes and empty bundles *)

(** X6.  For a positive batch size the slices that the loop over
    [range(0, len(node), batch_size)] cuts out of a bundle make up the
    bundle when put end to end, none is empty, none is longer than the batch
    size, and every one but the last has exactly the batch size. *)
Theorem batches_cover_bundle (node : list string) (batch_size : Z) :
  0 < batch_size →
  ∃ bl, batches node batch_size = Returned bl ∧
        mjoin bl = node ∧
        ∀ i batch, bl !! i = Some batch →
          (0 < length batch ≤ Z.to_nat batch_size)%nat ∧
          ((S i < length bl)%nat → length batch = Z.to_nat batch_size).
Proof. apply batches_spec. Qed.

Lemma batches_cover_bundle_witness :
  0 < 3 ∧
  ∃ bl, batches ["u1"; "u2"; "u3"; "u4"; "u5"; "u6"; "u7"] 3 = Returned bl ∧
        mjoin bl = ["u1"; "u2"; "u3"; "u4"; "u5"; "u6"; "u7"] ∧
        ∀ i batch, bl !! i = Some batch →
          (0 < length batch ≤ Z.to_nat 3)%nat ∧
          ((S i < length bl)%nat → length batch = Z.to_nat 3).
Proof.
  assert (0 < 3) as Hpos by reflexivity.
  split; [exact Hpos|].
  exact (batches_cover_bundle ["u1"; "u2"; "u3"; "u4"; "u5"; "u6"; "u7"] 3 Hpos).
Defined.

Example batches_seven_by_three :
  batches ["u1"; "u2"; "u3"; "u4"; "u5"; "u6"; "u7"] 3
  = Returned [["u1"; "u2"; "u3"]; ["u4"; "u5"; "u6"]; ["u7"]].
Proof. by vm_compute. Qed.

Lemma batches_nonempty node batch_size bl :
  batches node batch_size = Returned bl → Forall (λ batch, batch ≠ []) bl.
Proof.
  destruct (decide (0 < batch_size)) as [Hpos|Hneg].
  - destruct (batches_spec node batch_size Hpos) as (bl' & -> & _ & Hlen).
    intros [= <-]. apply Forall_lookup. intros i batch Hi.
    destruct (Hlen i batch Hi) as [Hb _]. intros ->. simpl in Hb. lia.
  - unfold batches, range0. destruct (decide (batch_size = 0)); [done|].
    rewrite decide_True by lia. by intros [= <-].
Qed.

Lemma for_batches_unbound json net bl s :
  Forall (λ batch, batch ≠ []) bl →
  for_batches (ARAH_call json net "asnyc_request") bl s =
  match bl with
  | [] => (Returned (), s)
  | _ :: _ => (Raised (AttributeError "asnyc_request"), s)
  end.
Proof.
  intros Hbl. destruct Hbl as [|batch bl Hbatch _]; [done|].
  simpl. by rewrite make_tasks_unbound by (done || apply asnyc_request_unbound).
Qed.

Lemma while_start_untouched json net batch_size stack s :
  ∃ o s' rest,
    while_start (ARAH_call json net "asnyc_request") batch_size stack s
      = (o, s', rest) ∧
    ready_queue s' = ready_queue s ∧
    not_request_queue s' = not_request_queue s ∧
    gathered s' = gathered s ∧
    rest `suffix_of` stack.
Proof.
  revert s. induction stack as [|node stack IH]; intros s; simpl.
  - by exists (Returned ()), s, [].
  - destruct (decide (0 < length node)%nat) as [Hlen|Hlen].
    + destruct (batches node batch_size) as [bl|e] eqn:Hbl.
      * rewrite for_batches_unbound by (by eapply batches_nonempty).
        destruct bl as [|batch bl].
        -- edestruct IH as (o & s' & rest & -> & Hr & Hn & Hg & Hsuf).
           exists o, s', rest. split_and!; [done..|]. by apply suffix_cons_r.
        -- eexists _, _, _. split_and!; [done..|]. by apply suffix_cons_r.
      * eexists _, _, _. split_and!; [done..|]. by apply suffix_cons_r.
    + destruct (IH s) as (o & s' & rest & -> & Hr & Hn & Hg & Hsuf).
      exists o, s', rest. split_and!; [done..|]. by apply suffix_cons_r.
Qed.

(** X7.  Whatever the queue and the batch size, [aiorequest_injection]
    leaves [ready_queue] and [not_request_queue] as they were and gathers no
    batch: either no batch is cut at all or building the first task raises.
    The bundles it leaves in [start] are a front part of the original
    queue. *)
Theorem aiorequest_injection_classifies_nothing
    (json : string → outcome pyvalue) (net : string → reply)
    (start : list (list string)) (batch_size : Z) (s : session) :
  ∃ o s' rest,
    aiorequest_injection json net start batch_size s = (o, s', rest) ∧
    ready_queue s' = ready_queue s ∧
    not_request_queue s' = not_request_queue s ∧
    gathered s' = gathered s ∧
    rest `prefix_of` start.
Proof.
  unfold aiorequest_injection, dispatch_with.
  destruct (while_start_untouched json net batch_size (rev start) s)
    as (o & s' & rest & -> & Hr & Hn & Hg & [front Hfront]).
  exists o, s', (rev rest). split_and!; [done..|].
  exists (rev front). rewrite <-rev_app_distr, <-Hfront. by rewrite rev_involutive.
Qed.

(** X8.  With batch size 0, [range] raises [ValueError] at the first bundle
    from the right that is not empty, after the notice for that bundle has
    been printed; the bundles to its left stay in the queue. *)
Theorem aiorequest_injection_zero_batch_size
    (json : string → outcome pyvalue) (net : string → reply)
    (before after : list (list string)) (node : list string) (s : session) :
  node ≠ [] → Forall (λ bundle, bundle = []) after →
  aiorequest_injection json net (before ++ node :: after) 0 s =
  (Raised ValueError,
   Session (ready_queue s) (not_request_queue s)
           (stdout s ++ [BundleNotice (length node)]) (gathered s),
   before).
Proof.
  intros Hnode Hafter. unfold aiorequest_injection, dispatch_with.
  rewrite rev_app_distr. simpl. rewrite <-app_assoc. simpl.
  assert (Forall (λ bundle, bundle = []) (rev after)) as Hrev.
  { rewrite Forall_forall in Hafter |- *. intros x Hx. apply Hafter.
    by apply list_elem_of_In, in_rev, list_elem_of_In. }
  induction Hrev as [|bundle stack -> _ IH]; simpl; [|apply IH].
  rewrite decide_True by (destruct node; simpl; [done|lia]).
  unfold batches, range0. simpl. by rewrite rev_involutive.
Qed.

Lemma aiorequest_injection_zero_batch_size_witness :
  aiorequest_injection (λ _, Returned PyNone) (λ _, Response 200 "")
    [["http://a"]; ["http://b"; "http://c"]; []] 0 fresh =
  (Raised ValueError, Session [] [] [BundleNotice 2] [], [["http://a"]]).
Proof.
  apply (aiorequest_injection_zero_batch_size (λ _, Returned PyNone)
           (λ _, Response 200 "") [["http://a"]] [[]] ["http://b"; "http://c"] fresh).
  - discriminate.
  - repeat constructor.
Defined.

Lemma while_start_no_batches call batch_size stack s :
  (∀ node, node ∈ stack → node ≠ [] → batches node batch_size = Returned []) →
  while_start call batch_size stack s =
  (Returned (),
   Session (ready_queue s) (not_request_queue s)
           (stdout s ++ ((λ node, BundleNotice (length node))
                           <$> filter (λ node, node ≠ []) stack))
           (gathered s),
   []).
Proof.
  revert s. induction stack as [|node stack IH]; intros s Hb; simpl.
  - rewrite app_nil_r. by destruct s.
  - rewrite filter_cons. destruct (decide (0 < length node)%nat) as [Hlen|Hlen].
    + assert (node ≠ []) as Hnode by (intros ->; simpl in Hlen; lia).
      rewrite decide_True by done.
      rewrite (Hb node) by (done || by left). simpl.
      rewrite IH by (intros n Hn; apply Hb; by right).
      simpl. by rewrite <-app_assoc.
    + assert (node = []) as -> by (destruct node; simpl in *; [done|lia]).
      rewrite decide_False by (by intros []).
      apply IH. intros n Hn. apply Hb. by right.
Qed.

(** X9.  With a negative batch size [range] is empty: every bundle is popped,
    a notice is printed for each one that is not empty, in pop order, no
    task is built, and the call returns with the queue empty and both
    result queues untouched. *)
Theorem aiorequest_injection_negative_batch_size
    (json : string → outcome pyvalue) (net : string → reply)
    (start : list (list string)) (batch_size : Z) (s : session) :
  batch_size < 0 →
  aiorequest_injection json net start batch_size s =
  (Returned (),
   Session (ready_queue s) (not_request_queue s)
           (stdout s ++ ((λ node, BundleNotice (length node))
                           <$> filter (λ node, node ≠ []) (rev start)))
           (gathered s),
   []).
Proof.
  intros Hneg. unfold aiorequest_injection, dispatch_with.
  rewrite while_start_no_batches; [done|].
  intros node _ _. unfold batches, range0.
  rewrite decide_False by lia. by rewrite decide_True by lia.
Qed.

Lemma aiorequest_injection_negative_batch_size_witness :
  aiorequest_injection (λ _, Returned PyNone) (λ _, Response 200 "")
    [["http://a"]; []; ["http://b"; "http://c"]] (-2) fresh =
  (Returned (), Session [] [] [BundleNotice 2; BundleNotice 1] [], []).
Proof.
  apply (aiorequest_injection_negative_batch_size (λ _, Returned PyNone)
           (λ _, Response 200 "") [["http://a"]; []; ["http://b"; "http://c"]]
           (-2) fresh).
  reflexivity.
Defined.

Lemma filter_nonempty_nil (stack : list (list string)) :
  Forall (λ bundle, bundle = []) stack →
  filter (λ node, node ≠ []) stack = [].
Proof.
  induction 1 as [|bundle stack -> _ IH]; [done|].
  rewrite filter_cons. by rewrite decide_False by (by intros []).
Qed.

(** X10.  A queue that holds only empty bundles is run empty without a
    notice, a task or an exception, whatever the batch size, zero
    included. *)
Theorem aiorequest_injection_empty_bundles
    (json : string → outcome pyvalue) (net : string → reply)
    (start : list (list string)) (batch_size : Z) (s : session) :
  Forall (λ bundle, bundle = []) start →
  aiorequest_injection json net start batch_size s = (Returned (), s, []).
Proof.
  intros Hstart. unfold aiorequest_injection, dispatch_with.
  assert (Forall (λ bundle, bundle = []) (rev start)) as Hrev.
  { rewrite Forall_forall in Hstart |- *. intros x Hx. apply Hstart.
    by apply list_elem_of_In, in_rev, list_elem_of_In. }
  rewrite while_start_no_batches.
  - rewrite filter_nonempty_nil by done. simpl. rewrite app_nil_r. by destruct s.
  - intros node Hnode Hne. exfalso. apply Hne.
    rewrite Forall_forall in Hrev. by apply Hrev.
Qed.

Lemma aiorequest_injection_empty_bundles_witness :
  aiorequest_injection (λ _, Returned PyNone) (λ _, Response 200 "")
    [[]; []] 0 fresh = (Returned (), fresh, []).
Proof.
  apply (aiorequest_injection_empty_bundles (λ _, Returned PyNone)
           (λ _, Response 200 "") [[]; []] 0 fresh).
  repeat constructor.
Defined.

(** ** Result classification: nothing lost, and what a fetched batch
       becomes *)

Lemma classified_parts_permutation (result : list pyvalue) :
  (PyStr <$> strings_of result) ++ (PyDict <$> dicts_of result)
    ++ others_of result ≡ₚ result.
Proof.
  unfold strings_of, dicts_of, others_of.
  induction result as [|v result IH]; [done|].
  rewrite filter_cons.
  destruct v; simpl; rewrite <-?Permutation_middle; by apply perm_skip.
Qed.

(** X11.  [url_classifier] loses and duplicates nothing: what it appends to
    [ready_queue], what it appends to [not_request_queue] and what it
    prints are together a rearrangement of its input, and what the queues
    and the output held before stays in front. *)
Theorem url_classifier_accounts_for_every_item
    (result : list pyvalue) (s : session) :
  ∃ urls records reported,
    ready_queue (url_classifier result s) = ready_queue s ++ urls ∧
    not_request_queue (url_classifier result s) = not_request_queue s ++ records ∧
    stdout (url_classifier result s) = stdout s ++ (TypeMismatch <$> reported) ∧
    (PyStr <$> urls) ++ (PyDict <$> records) ++ reported ≡ₚ result.
Proof.
  exists (strings_of result), (dicts_of result), (others_of result).
  rewrite url_classifier_queues. simpl. split_and!; [done..|].
  apply classified_parts_permutation.
Qed.

Lemma omap_cons_case {A B} (f : A → option B) (x : A) (l : list A) :
  omap f (x :: l) = match f x with Some y => y :: omap f l | None => omap f l end.
Proof. done. Qed.

(** X12.  Gathering [async_request_status] over a list of URLs with
    [return_exceptions=True] and classifying the outcome appends to
    [ready_queue] exactly the URLs answered with status 200, in order, to
    [not_request_queue] one [{"status": code}] for every other answer, and
    prints one exception for every request that failed in transport. *)
Theorem classified_status_results
    (json : string → outcome pyvalue) (net : string → reply)
    (urls : list string) (s : session) :
  url_classifier
    (gather_return_exceptions (async_request_status json net <$> urls)) s =
  Session (ready_queue s ++ filter (λ url, answered_ok net url) urls)
          (not_request_queue s ++ refusals net urls)
          (stdout s ++ (TypeMismatch <$> failures net urls))
          (gathered s).
Proof.
  rewrite url_classifier_queues.
  set (outcome_of := λ url,
         match net url with
         | Response status _ =>
             if decide (status = 200) then PyStr url
             else PyDict [("status", status)]
         | TransportFailure reason => PyExc (ClientError reason)
         end).
  assert (gather_return_exceptions (async_request_status json net <$> urls)
          = outcome_of <$> urls) as ->.
  { unfold gather_return_exceptions. rewrite <-list_fmap_compose.
    apply list_fmap_ext. intros _ url _. simpl.
    unfold async_request_status, async_type, async_request, outcome_of.
    destruct (net url) as [status body|reason]; [|done].
    by destruct (decide (status = 200)). }
  assert (strings_of (outcome_of <$> urls)
          = filter (λ url, answered_ok net url) urls) as ->.
  { unfold strings_of. induction urls as [|url urls IH]; [done|].
    rewrite fmap_cons, omap_cons_case, filter_cons, IH.
    unfold outcome_of, answered_ok.
    destruct (net url) as [status body|reason]; [|done].
    destruct (decide (status = 200)).
    - by rewrite bool_decide_eq_true_2.
    - by rewrite bool_decide_eq_false_2. }
  assert (dicts_of (outcome_of <$> urls) = refusals net urls) as ->.
  { unfold dicts_of, refusals. induction urls as [|url urls IH]; [done|].
    rewrite fmap_cons, !omap_cons_case, IH. unfold outcome_of.
    destruct (net url) as [status body|reason]; [|done].
    by destruct (decide (status = 200)). }
  assert (others_of (outcome_of <$> urls) = failures net urls) as ->.
  { unfold others_of, failures. induction urls as [|url urls IH]; [done|].
    rewrite fmap_cons, omap_cons_case, filter_cons, IH. unfold outcome_of.
    destruct (net url) as [status body|reason]; [|done].
    by destruct (decide (status = 200)). }
  done.
Qed.

(** ** Bounded crawler: what the shared state and the tasks keep *)

Lemma sum_list_with_insert (f : task → nat) (ts : list task) i t t' :
  ts !! i = Some t →
  (sum_list_with f (<[i := t']> ts) + f t = sum_list_with f ts + f t')%nat.
Proof.
  revert i. induction ts as [|x ts IH]; intros [|i] Hi; simplify_eq/=.
  - lia.
  - specialize (IH i Hi). lia.
Qed.

Lemma crawl_iteration_cases c :
  ((crawl_iteration c).1 = Finished ∧ (crawl_iteration c).2 = c) ∨
  (∃ u d rest,
     url_queue c = (u, d) :: rest ∧
     Z.of_nat (size (visited_urls c)) < max_pages c ∧
     (crawl_iteration c).1 = AtLoopTest ∧
     (crawl_iteration c).2 =
       {| start_url := start_url c; max_pages := max_pages c;
          max_depth := max_depth c; visited_urls := visited_urls c;
          url_queue := rest; results := results c |}) ∨
  (∃ u d rest,
     url_queue c = (u, d) :: rest ∧
     Z.of_nat (size (visited_urls c)) < max_pages c ∧
     (u ∉ visited_urls c) ∧ d ≤ max_depth c ∧
     (crawl_iteration c).1 = AwaitingContent u d ∧
     (crawl_iteration c).2 =
       {| start_url := start_url c; max_pages := max_pages c;
          max_depth := max_depth c; visited_urls := {[u]} ∪ visited_urls c;
          url_queue := rest; results := results c |}).
Proof.
  unfold crawl_iteration. destruct (url_queue c) as [|[u d] rest] eqn:Hq.
  { by left. }
  destruct (decide (Z.of_nat (size (visited_urls c)) < max_pages c)) as [Hlt|];
    [|by left].
  destruct (decide (u ∈ visited_urls c ∨ d > max_depth c)) as [Hskip|Hfresh].
  - right. left. by exists u, d, rest.
  - right. right. exists u, d, rest. split_and!; try done.
    + intros ?. apply Hfresh. by left.
    + destruct (decide (d ≤ max_depth c)); [done|]. exfalso. apply Hfresh. right. lia.
Qed.

Lemma enqueue_links_entries depth order c :
  ∃ added,
    enqueue_links depth order c =
      {| start_url := start_url c; max_pages := max_pages c;
         max_depth := max_depth c; visited_urls := visited_urls c;
         url_queue := url_queue c ++ added; results := results c |} ∧
    Forall (λ entry, entry.1 ∈ order ∧ (entry.1 ∉ visited_urls c) ∧
                     entry.2 = depth + 1) added.
Proof.
  unfold enqueue_links. revert c.
  induction order as [|link order IH]; intros c; simpl.
  - exists []. rewrite app_nil_r. by destruct c.
  - destruct (decide (link ∈ visited_urls c)) as [Hin|Hnin].
    + destruct (IH c) as (added & -> & Hadded). exists added. split; [done|].
      eapply Forall_impl; [done|]. intros e (? & ? & ?). split_and!; [by right|done..].
    + destruct (IH (put (link, depth + 1) c)) as (added & -> & Hadded).
      exists ((link, depth + 1) :: added). simpl.
      rewrite <-app_assoc. split; [done|]. constructor.
      * split_and!; [by left|done..].
      * eapply Forall_impl; [done|]. intros e (? & ? & ?).
        split_and!; [by right|done..].
Qed.

Section CrawlerMore.

Variable url_addition : string → string → string.
Variable anchors : string → list string.

#[local] Abbreviation parse_links := (Search.parse_links url_addition anchors).
#[local] Abbreviation crawl_resume := (Search.crawl_resume url_addition anchors).
#[local] Abbreviation step := (Search.step url_addition anchors).
#[local] Abbreviation reachable_from := (Search.reachable_from url_addition anchors).

Lemma crawl_resume_cases current_url depth content order c :
  crawl_resume current_url depth content order c = c ∨
  (content ≠ "" ∧ depth < max_depth c ∧
   ∃ added,
     crawl_resume current_url depth content order c =
       {| start_url := start_url c; max_pages := max_pages c;
          max_depth := max_depth c; visited_urls := visited_urls c;
          url_queue := url_queue c ++ added;
          results := <[current_url := parse_links content current_url]> (results c) |} ∧
     Forall (λ entry, entry.1 ∈ order ∧ (entry.1 ∉ visited_urls c) ∧
                      entry.2 = depth + 1) added).
Proof.
  unfold Search.crawl_resume.
  destruct (decide (content = "")); [by left|].
  destruct (decide (depth < max_depth c)); [|by left].
  right. split_and!; [done..|].
  edestruct enqueue_links_entries as (added & -> & Hadded). by exists added.
Qed.

Lemma system_invariant (P : system → Prop) s0 st :
  P s0 → (∀ s s', P s → step s s' → P s') → reachable_from s0 st → P st.
Proof.
  intros H0 Hstep Hreach. unfold Search.reachable_from in Hreach.
  revert st Hreach. apply (rtc_ind_r P); [done|]. eauto.
Qed.

(** The URLs being fetched are visited and pairwise distinct, and so are
    the keys of the result map. *)
Lemma fetch_invariant start pages depth num_tasks st :
  reachable_from (run_start start pages depth num_tasks) st →
  (∀ i u d, tasks st !! i = Some (AwaitingContent u d) →
            u ∈ visited_urls (shared st)) ∧
  (∀ i j u d d', tasks st !! i = Some (AwaitingContent u d) →
                 tasks st !! j = Some (AwaitingContent u d') → i = j) ∧
  (∀ u, is_Some (results (shared st) !! u) → u ∈ visited_urls (shared st)).
Proof.
  apply (system_invariant (λ st,
    (∀ i u d, tasks st !! i = Some (AwaitingContent u d) →
              u ∈ visited_urls (shared st)) ∧
    (∀ i j u d d', tasks st !! i = Some (AwaitingContent u d) →
                   tasks st !! j = Some (AwaitingContent u d') → i = j) ∧
    (∀ u, is_Some (results (shared st) !! u) → u ∈ visited_urls (shared st)))).
  - simpl. split_and!.
    + intros i u d [? _]%lookup_replicate. done.
    + intros i j u d d' [? _]%lookup_replicate. done.
    + intros u [x Hx]. by rewrite lookup_empty in Hx.
  - intros s s' (Haw & Hdist & Hres) Hstep.
    destruct Hstep as [i c ts Hi
                      |i c ts cu cd json net content order Hi Hfetch Hperm
                      |i c ts cu cd json net e Hi Hfetch]; simpl in *.
    + destruct (crawl_iteration_cases c)
        as [(-> & ->)|[(u0 & d0 & rest & Hq & Hlt & -> & ->)
                      |(u0 & d0 & rest & Hq & Hlt & Hfresh & Hd & -> & ->)]];
        simpl.
      * split_and!; [| |done].
        -- intros k u d [(_ & [=] & _)|[_ Hk]]%list_lookup_insert_Some. eauto.
        -- intros k1 k2 u d d' [(_ & [=] & _)|[_ Hk1]]%list_lookup_insert_Some
             [(_ & [=] & _)|[_ Hk2]]%list_lookup_insert_Some. eauto.
      * split_and!; [| |done].
        -- intros k u d [(_ & [=] & _)|[_ Hk]]%list_lookup_insert_Some. eauto.
        -- intros k1 k2 u d d' [(_ & [=] & _)|[_ Hk1]]%list_lookup_insert_Some
             [(_ & [=] & _)|[_ Hk2]]%list_lookup_insert_Some. eauto.
      * split_and!.
        -- intros k u d [(_ & [= -> ->] & _)|[_ Hk]]%list_lookup_insert_Some;
             [set_solver|]. apply elem_of_union. right. eauto.
        -- intros k1 k2 u d d' H1 H2.
           apply list_lookup_insert_Some in H1 as [(<- & H1 & _)|[Hne1 Hk1]];
             apply list_lookup_insert_Some in H2 as [(<- & H2 & _)|[Hne2 Hk2]];
             simplify_eq;
             first [done | exfalso; apply Hfresh; by eauto | by eauto].
        -- intros u Hu. apply elem_of_union. right. eauto.
    + assert (∀ k u d, <[i := AtLoopTest]> ts !! k = Some (AwaitingContent u d) →
                       ts !! k = Some (AwaitingContent u d)) as Hold.
      { intros k u d [(_ & [=] & _)|[_ Hk]]%list_lookup_insert_Some. done. }
      destruct (crawl_resume_cases cu cd content order c)
        as [->|(_ & _ & added & -> & _)]; simpl.
      * split_and!; [| |done]; eauto.
      * split_and!; [eauto|eauto|].
        intros u Hu. apply lookup_insert_is_Some in Hu as [<-|[_ Hu]]; eauto.
    + assert (∀ k u d, <[i := Aborted e]> ts !! k = Some (AwaitingContent u d) →
                       ts !! k = Some (AwaitingContent u d)) as Hold.
      { intros k u d [(_ & [=] & _)|[_ Hk]]%list_lookup_insert_Some. done. }
      split_and!; [| |done]; eauto.
Qed.

(** X13.  In every reachable state every key of the result map is a
    visited URL: links are only recorded for pages that were marked
    visited before they were fetched. *)
Theorem results_keys_are_visited
    (start : string) (pages depth : Z) (num_tasks : nat) (st : system) :
  reachable_from (run_start start pages depth num_tasks) st →
  dom (results (shared st)) ⊆ visited_urls (shared st).
Proof.
  intros (_ & _ & Hres)%fetch_invariant. intros u Hu%elem_of_dom. by apply Hres.
Qed.

(** X14.  In every reachable state no two tasks are suspended in a fetch of
    the same URL, and every URL being fetched is already in the visited
    set: the membership test and the insertion are not separated by a
    suspension point, so a page is not fetched twice at once. *)
Theorem no_url_fetched_by_two_tasks
    (start : string) (pages depth : Z) (num_tasks : nat) (st : system)
    (i j : nat) (url : string) (d d' : Z) :
  reachable_from (run_start start pages depth num_tasks) st →
  tasks st !! i = Some (AwaitingContent url d) →
  tasks st !! j = Some (AwaitingContent url d') →
  i = j ∧ url ∈ visited_urls (shared st).
Proof.
  intros (Haw & Hdist & _)%fetch_invariant Hi Hj. split; eauto.
Qed.

(** X15.  Every URL that is visited or waits in the queue is the seed URL
    or starts with [http]: the queue only ever receives the seed and links
    that [parse_links] returned. *)
Theorem crawled_urls_seed_or_http
    (start : string) (pages depth : Z) (num_tasks : nat) (st : system) :
  reachable_from (run_start start pages depth num_tasks) st →
  (∀ url, url ∈ visited_urls (shared st) →
          url = start ∨ startswith "http" url = true) ∧
  (∀ entry, entry ∈ url_queue (shared st) →
            entry.1 = start ∨ startswith "http" entry.1 = true).
Proof.
  apply (system_invariant (λ st,
    (∀ url, url ∈ visited_urls (shared st) →
            url = start ∨ startswith "http" url = true) ∧
    (∀ entry, entry ∈ url_queue (shared st) →
              entry.1 = start ∨ startswith "http" entry.1 = true))).
  - simpl. split.
    + intros url []%not_elem_of_empty.
    + intros entry ->%list_elem_of_singleton. by left.
  - intros s s' [Hvis Hq] Hstep.
    destruct Hstep as [i c ts Hi
                      |i c ts cu cd json net content order Hi Hfetch Hperm
                      |i c ts cu cd json net e Hi Hfetch]; simpl in *; [| |done].
    + destruct (crawl_iteration_cases c)
        as [(_ & ->)|[(u0 & d0 & rest & Hqc & _ & _ & ->)
                     |(u0 & d0 & rest & Hqc & _ & _ & _ & _ & ->)]];
        simpl; [done| |].
      * split; [done|]. intros entry He. apply Hq. rewrite Hqc. by right.
      * split.
        -- intros url [->%elem_of_singleton|?]%elem_of_union; [|by apply Hvis].
           apply (Hq (u0, d0)). rewrite Hqc. by left.
        -- intros entry He. apply Hq. rewrite Hqc. by right.
    + destruct (crawl_resume_cases cu cd content order c)
        as [->|(_ & _ & added & -> & Hadded)]; simpl; [done|].
      split; [done|].
      intros entry [?|He]%elem_of_app; [by apply Hq|]. right.
      rewrite Forall_forall in Hadded. destruct (Hadded entry He) as (Hin & _ & _).
      rewrite Hperm in Hin. apply elem_of_elements in Hin.
      by apply parse_links_elem in Hin as (href & _ & _ & ?).
Qed.

(** X16.  With a depth bound of 0 or less nothing is ever recorded and no
    link is ever enqueued: the result map stays empty, the queue holds at
    most the seed, and at most the seed is visited. *)
Theorem depth_bound_zero_records_nothing
    (start : string) (pages depth : Z) (num_tasks : nat) (st : system) :
  depth ≤ 0 →
  reachable_from (run_start start pages depth num_tasks) st →
  results (shared st) = ∅ ∧
  visited_urls (shared st) ⊆ {[start]} ∧
  Forall (λ entry, entry = (start, 0)) (url_queue (shared st)).
Proof.
  intros Hdepth Hreach.
  cut (max_depth (shared st) = depth ∧
       results (shared st) = ∅ ∧
       visited_urls (shared st) ⊆ {[start]} ∧
       Forall (λ entry, entry = (start, 0)) (url_queue (shared st)) ∧
       ∀ i u d, tasks st !! i = Some (AwaitingContent u d) → d = 0); [tauto|].
  revert Hreach.
  apply (system_invariant (λ st,
    max_depth (shared st) = depth ∧
    results (shared st) = ∅ ∧
    visited_urls (shared st) ⊆ {[start]} ∧
    Forall (λ entry, entry = (start, 0)) (url_queue (shared st)) ∧
    ∀ i u d, tasks st !! i = Some (AwaitingContent u d) → d = 0)).
  - simpl. split_and!; [done|done|set_solver|by repeat constructor|].
    intros i u d [? _]%lookup_replicate. done.
  - intros s s' (Hmax & Hres & Hvis & Hq & Haw) Hstep.
    destruct Hstep as [i c ts Hi
                      |i c ts cu cd json net content order Hi Hfetch Hperm
                      |i c ts cu cd json net e Hi Hfetch]; simpl in *.
    + destruct (crawl_iteration_cases c)
        as [(-> & ->)|[(u0 & d0 & rest & Hqc & _ & -> & ->)
                      |(u0 & d0 & rest & Hqc & _ & _ & _ & -> & ->)]];
        simpl; rewrite ?Hqc in Hq.
      * split_and!; [done..|].
        intros k u d [(_ & [=] & _)|[_ Hk]]%list_lookup_insert_Some. eauto.
      * apply Forall_cons in Hq as [_ Hq]. split_and!; [done..|].
        intros k u d [(_ & [=] & _)|[_ Hk]]%list_lookup_insert_Some. eauto.
      * apply Forall_cons in Hq as [[= -> ->] Hq]. split_and!; [done|done| |done|].
        -- set_solver.
        -- intros k u d [(_ & [= _ <-] & _)|[_ Hk]]%list_lookup_insert_Some; eauto.
    + assert (cd = 0) as -> by eauto.
      destruct (crawl_resume_cases cu 0 content order c)
        as [->|(_ & Hlt & _)]; [|lia].
      split_and!; [done..|].
      intros k u d [(_ & [=] & _)|[_ Hk]]%list_lookup_insert_Some. eauto.
    + split_and!; [done..|].
      intros k u d [(_ & [=] & _)|[_ Hk]]%list_lookup_insert_Some. eauto.
Qed.

(** X17.  With a page bound of 0 or less the crawler object never changes:
    nothing is visited, fetched or recorded, the seed stays in the queue,
    and a task can only go from the loop test to its end. *)
Theorem page_bound_zero_visits_nothing
    (start : string) (pages depth : Z) (num_tasks : nat) (st : system) :
  pages ≤ 0 →
  reachable_from (run_start start pages depth num_tasks) st →
  shared st = new_crawler start pages depth ∧
  Forall (λ t, t = AtLoopTest ∨ t = Finished) (tasks st).
Proof.
  intros Hpages.
  apply (system_invariant (λ st,
    shared st = new_crawler start pages depth ∧
    Forall (λ t, t = AtLoopTest ∨ t = Finished) (tasks st))).
  - simpl. split; [done|]. apply Forall_replicate. by left.
  - intros s s' [Hc Hts] Hstep.
    destruct Hstep as [i c ts Hi
                      |i c ts cu cd json net content order Hi Hfetch Hperm
                      |i c ts cu cd json net e Hi Hfetch]; simpl in *.
    + destruct (crawl_iteration_cases c)
        as [(-> & ->)|[(u0 & d0 & rest & _ & Hlt & _)
                      |(u0 & d0 & rest & _ & Hlt & _)]].
      * split; [done|]. apply Forall_insert; [done|by right].
      * subst c. simpl in Hlt. lia.
      * subst c. simpl in Hlt. lia.
    + rewrite Forall_lookup in Hts. by destruct (Hts i _ Hi).
    + rewrite Forall_lookup in Hts. by destruct (Hts i _ Hi).
Qed.

Lemma step_grows s s' :
  step s s' →
  visited_urls (shared s) ⊆ visited_urls (shared s') ∧
  dom (results (shared s)) ⊆ dom (results (shared s')) ∧
  length (tasks s') = length (tasks s).
Proof.
  intros Hstep.
  destruct Hstep as [i c ts Hi
                    |i c ts cu cd json net content order Hi Hfetch Hperm
                    |i c ts cu cd json net e Hi Hfetch]; simpl;
    rewrite length_insert.
  - destruct (crawl_iteration_cases c)
      as [(_ & ->)|[(u0 & d0 & rest & _ & _ & _ & ->)
                   |(u0 & d0 & rest & _ & _ & _ & _ & _ & ->)]];
      simpl; split_and!; set_solver.
  - destruct (crawl_resume_cases cu cd content order c)
      as [->|(_ & _ & added & -> & _)]; simpl; [done|].
    split_and!; [done| |done]. rewrite dom_insert. set_solver.
  - done.
Qed.

(** X18.  From any state on, a step never takes a URL out of the visited
    set or a key out of the result map, and never changes the number of
    tasks. *)
Theorem visited_and_results_only_grow (s s' : system) :
  reachable_from s s' →
  visited_urls (shared s) ⊆ visited_urls (shared s') ∧
  dom (results (shared s)) ⊆ dom (results (shared s')) ∧
  length (tasks s') = length (tasks s).
Proof.
  apply (system_invariant (λ s',
    visited_urls (shared s) ⊆ visited_urls (shared s') ∧
    dom (results (shared s)) ⊆ dom (results (shared s')) ∧
    length (tasks s') = length (tasks s))); [done|].
  intros s1 s2 (Hv & Hr & Hl) (Hv' & Hr' & Hl')%step_grows.
  split_and!; [set_solver|set_solver|congruence].
Qed.

Lemma crawl_terminates_from (a b m : nat) (st : system) :
  pages_left (shared st) = a →
  sum_list_with is_awaiting (tasks st) = b →
  (length (url_queue (shared st)) + sum_list_with is_at_loop_test (tasks st))%nat = m →
  sn step st.
Proof.
  revert b m st. induction (lt_wf a) as [a _ IHa].
  intros b. induction (lt_wf b) as [b _ IHb].
  intros m. induction (lt_wf m) as [m _ IHm].
  intros st Ha Hb Hm. constructor. intros st' Hstep. unfold flip in Hstep.
  destruct Hstep as [i c ts Hi
                    |i c ts cu cd json net content order Hi Hfetch Hperm
                    |i c ts cu cd json net e Hi Hfetch]; simpl in *.
  - destruct (crawl_iteration_cases c)
      as [(-> & ->)|[(u0 & d0 & rest & Hq & Hlt & -> & ->)
                    |(u0 & d0 & rest & Hq & Hlt & Hfresh & Hd & -> & ->)]].
    + pose proof (sum_list_with_insert is_awaiting ts i _ Finished Hi) as H1.
      pose proof (sum_list_with_insert is_at_loop_test ts i _ Finished Hi) as H2.
      simpl in H1, H2.
      eapply (IHm (length (url_queue c)
                   + sum_list_with is_at_loop_test (<[i:=Finished]> ts))%nat);
        simpl; lia.
    + pose proof (sum_list_with_insert is_awaiting ts i _ AtLoopTest Hi) as H1.
      pose proof (sum_list_with_insert is_at_loop_test ts i _ AtLoopTest Hi) as H2.
      simpl in H1, H2. rewrite Hq in Hm. simpl in Hm.
      eapply (IHm (length rest
                   + sum_list_with is_at_loop_test (<[i:=AtLoopTest]> ts))%nat);
        simpl; try done; lia.
    + eapply (IHa (pages_left
                     {| start_url := start_url c; max_pages := max_pages c;
                        max_depth := max_depth c;
                        visited_urls := {[u0]} ∪ visited_urls c;
                        url_queue := rest; results := results c |}));
        [|done..].
      unfold pages_left in *. simpl.
      rewrite size_union by set_solver. rewrite size_singleton. lia.
    - pose proof (sum_list_with_insert is_awaiting ts i _ AtLoopTest Hi) as H1.
      simpl in H1.
      destruct (crawl_resume_fields url_addition anchors cu cd content order c)
        as (Hp & _ & Hv).
      eapply (IHb (sum_list_with is_awaiting (<[i:=AtLoopTest]> ts))); simpl;
        [lia| |done..].
      unfold pages_left in *. by rewrite Hp, Hv.
    - pose proof (sum_list_with_insert is_awaiting ts i _ (Aborted e) Hi) as H1.
      simpl in H1.
      eapply (IHb (sum_list_with is_awaiting (<[i:=Aborted e]> ts))); simpl;
        [lia|done..].
Qed.

(** X19.  Every run of the crawl tasks is finite, from any state and for
    any answers of the network: a step either uses up one page of the page
    budget, or ends a fetch, or takes an entry off the queue, or ends a
    task, so no infinite sequence of steps exists. *)
Theorem crawl_terminates (st : system) : sn step st.
Proof. by eapply crawl_terminates_from. Qed.

(** X20.  The crawler does not look at the status code of a page: when a
    task is suspended in the fetch of a URL above the depth bound and the
    answer has a body that is not empty, then for any status code the task
    can resume, and it records the links of that body under the URL and
    returns to the loop test. *)
Theorem error_status_page_is_parsed
    (c : crawler) (ts : list task) (i : nat) (url : string) (depth : Z)
    (json : string → outcome pyvalue) (net : string → reply)
    (status : Z) (body : string) :
  ts !! i = Some (AwaitingContent url depth) →
  net url = Response status body →
  body ≠ "" → depth < max_depth c →
  ∃ st',
    step (System c ts) st' ∧
    tasks st' !! i = Some AtLoopTest ∧
    results (shared st') !! url = Some (parse_links body url) ∧
    visited_urls (shared st') = visited_urls c.
Proof.
  intros Hi Hnet Hbody Hdepth.
  exists (System (crawl_resume url depth body
                    (elements (parse_links body url)) c)
                 (<[i := AtLoopTest]> ts)).
  split_and!.
  - apply (step_content url_addition anchors i c ts url depth json net body).
    + done.
    + unfold async_fetch_content, async_type. by rewrite Hnet.
    + done.
  - simpl. apply list_lookup_insert_eq. by eapply lookup_lt_Some.
  - simpl. unfold Search.crawl_resume.
    rewrite decide_False by done. rewrite decide_True by done.
    edestruct enqueue_links_entries as (added & -> & _). simpl.
    apply lookup_insert_eq.
  - simpl. by destruct (crawl_resume_fields url_addition anchors url depth body
                          (elements (parse_links body url)) c) as (_ & _ & ->).
Qed.

End CrawlerMore.

Lemma session1_reachable : reachable_from join_url one_page session0 session1.
Proof.
  apply rtc_once. apply (step_iteration join_url one_page 0%nat). reflexivity.
Defined.

Lemma shallow2_reachable : reachable_from join_url one_page shallow0 shallow2.
Proof.
  apply (rtc_l _ _ shallow1).
  - apply (step_iteration join_url one_page 0%nat). reflexivity.
  - apply rtc_once.
    apply (step_content join_url one_page 0%nat _ _ "http://x/" 0
             (λ _, Returned PyNone) (λ _, Response 200 "<home>") "<home>").
    + by vm_compute.
    + reflexivity.
    + reflexivity.
Defined.

Lemma closed1_reachable : reachable_from join_url one_page closed0 closed1.
Proof.
  apply rtc_once. apply (step_iteration join_url one_page 0%nat). reflexivity.
Defined.

Lemma results_keys_are_visited_witness :
  reachable_from join_url one_page (run_start "http://x/" 5 1 2) session2 ∧
  dom (results (shared session2)) ⊆ visited_urls (shared session2).
Proof.
  split; [exact session2_reachable|].
  exact (results_keys_are_visited join_url one_page "http://x/" 5 1 2 session2
           session2_reachable).
Defined.

Lemma no_url_fetched_by_two_tasks_witness :
  reachable_from join_url one_page (run_start "http://x/" 5 1 2) session1 ∧
  tasks session1 !! 0%nat = Some (AwaitingContent "http://x/" 0) ∧
  0%nat = 0%nat ∧ "http://x/" ∈ visited_urls (shared session1).
Proof.
  assert (tasks session1 !! 0%nat = Some (AwaitingContent "http://x/" 0)) as Ht
    by (by vm_compute).
  split_and!; [exact session1_reachable|exact Ht|
    exact (proj1 (no_url_fetched_by_two_tasks join_url one_page "http://x/" 5 1 2
                    session1 0 0 "http://x/" 0 0 session1_reachable Ht Ht))|
    exact (proj2 (no_url_fetched_by_two_tasks join_url one_page "http://x/" 5 1 2
                    session1 0 0 "http://x/" 0 0 session1_reachable Ht Ht))].
Defined.

Lemma crawled_urls_seed_or_http_witness :
  reachable_from join_url one_page (run_start "http://x/" 5 1 2) session2 ∧
  (∀ url, url ∈ visited_urls (shared session2) →
          url = "http://x/" ∨ startswith "http" url = true) ∧
  (∀ entry, entry ∈ url_queue (shared session2) →
            entry.1 = "http://x/" ∨ startswith "http" entry.1 = true).
Proof.
  split; [exact session2_reachable|].
  exact (crawled_urls_seed_or_http join_url one_page "http://x/" 5 1 2 session2
           session2_reachable).
Defined.

Lemma depth_bound_zero_records_nothing_witness :
  0 ≤ 0 ∧
  reachable_from join_url one_page (run_start "http://x/" 5 0 2) shallow2 ∧
  results (shared shallow2) = ∅ ∧
  visited_urls (shared shallow2) ⊆ {["http://x/"]} ∧
  Forall (λ entry, entry = ("http://x/", 0)) (url_queue (shared shallow2)).
Proof.
  assert (0 ≤ 0) as Hle by reflexivity.
  split_and!; [exact Hle|exact shallow2_reachable|..];
    apply (depth_bound_zero_records_nothing join_url one_page "http://x/" 5 0 2
             shallow2 Hle shallow2_reachable).
Defined.

Example shallow2_state :
  visited_urls (shared shallow2) = {["http://x/"]} ∧
  url_queue (shared shallow2) = [].
Proof. by vm_compute. Qed.

Lemma page_bound_zero_visits_nothing_witness :
  0 ≤ 0 ∧
  reachable_from join_url one_page (run_start "http://x/" 0 1 2) closed1 ∧
  shared closed1 = new_crawler "http://x/" 0 1 ∧
  Forall (λ t, t = AtLoopTest ∨ t = Finished) (tasks closed1).
Proof.
  assert (0 ≤ 0) as Hle by reflexivity.
  split_and!; [exact Hle|exact closed1_reachable|..];
    apply (page_bound_zero_visits_nothing join_url one_page "http://x/" 0 1 2
             closed1 Hle closed1_reachable).
Defined.

Lemma visited_and_results_only_grow_witness :
  reachable_from join_url one_page session0 session2 ∧
  visited_urls (shared session0) ⊆ visited_urls (shared session2) ∧
  dom (results (shared session0)) ⊆ dom (results (shared session2)) ∧
  length (tasks session2) = length (tasks session0).
Proof.
  split; [exact session2_reachable|].
  exact (visited_and_results_only_grow join_url one_page session0 session2
           session2_reachable).
Defined.

Lemma error_status_page_is_parsed_witness :
  tasks session1 !! 0%nat = Some (AwaitingContent "http://x/" 0) ∧
  0 < max_depth (shared session1) ∧
  ∃ st',
    step join_url one_page session1 st' ∧
    tasks st' !! 0%nat = Some AtLoopTest ∧
    results (shared st') !! "http://x/"
      = Some (parse_links join_url one_page "<home>" "http://x/") ∧
    visited_urls (shared st') = visited_urls (shared session1).
Proof.
  assert (tasks session1 !! 0%nat = Some (AwaitingContent "http://x/" 0)) as Ht
    by (by vm_compute).
  assert (0 < max_depth (shared session1)) as Hd by (by vm_compute).
  split_and!; [exact Ht|exact Hd|].
  apply (error_status_page_is_parsed join_url one_page (shared session1)
           (tasks session1) 0 "http://x/" 0 (λ _, Returned PyNone)
           (λ _, Response 404 "<home>") 404 "<home>").
  - exact Ht.
  - reflexivity.
  - discriminate.
  - exact Hd.
Defined.

Lemma crawl_iteration_finished c :
  (crawl_iteration c).1 = Finished →
  (crawl_iteration c).2 = c ∧
  (url_queue c = [] ∨ max_pages c ≤ Z.of_nat (size (visited_urls c))).
Proof.
  unfold crawl_iteration. destruct (url_queue c) as [|[u d] rest] eqn:Hq.
  { intros _. split; [done|by left]. }
  destruct (decide (Z.of_nat (size (visited_urls c)) < max_pages c)) as [Hlt|Hge].
  - by destruct (decide (u ∈ visited_urls c ∨ d > max_depth c)).
  - intros _. split; [done|]. right. lia.
Qed.

(** X21.  When [run] was given at least one task and every task has
    returned, the queue is empty or the visited set has reached the page
    bound: a task only leaves its loop on that condition, and nothing
    changes the crawler after the last task has left. *)
Theorem all_tasks_finished_condition
    (url_addition : string → string → string) (anchors : string → list string)
    (start : string) (pages depth : Z) (num_tasks : nat) (st : system) :
  (0 < num_tasks)%nat →
  reachable_from url_addition anchors (run_start start pages depth num_tasks) st →
  Forall (λ t, t = Finished) (tasks st) →
  url_queue (shared st) = [] ∨
  max_pages (shared st) ≤ Z.of_nat (size (visited_urls (shared st))).
Proof.
  intros Hnum Hreach.
  cut (length (tasks st) = num_tasks ∧
       (Forall (λ t, t = Finished) (tasks st) →
        url_queue (shared st) = [] ∨
        max_pages (shared st) ≤ Z.of_nat (size (visited_urls (shared st)))));
    [tauto|].
  revert Hreach.
  apply (system_invariant url_addition anchors (λ st,
    length (tasks st) = num_tasks ∧
    (Forall (λ t, t = Finished) (tasks st) →
     url_queue (shared st) = [] ∨
     max_pages (shared st) ≤ Z.of_nat (size (visited_urls (shared st)))))).
  - simpl. split; [apply length_replicate|].
    destruct num_tasks; [lia|]. simpl. by intros [[=] _]%Forall_cons.
  - intros s s' [Hlen _] Hstep.
    destruct Hstep as [i c ts Hi
                      |i c ts cu cd json net content order Hi Hfetch Hperm
                      |i c ts cu cd json net e Hi Hfetch]; simpl in *;
      rewrite length_insert; (split; [done|]); intros Hall;
      rewrite Forall_lookup in Hall;
      pose proof (lookup_lt_Some _ _ _ Hi) as Hlt.
    + specialize (Hall i _ (list_lookup_insert_eq _ _ _ Hlt)).
      by destruct (crawl_iteration_finished c Hall) as [-> ?].
    + by specialize (Hall i _ (list_lookup_insert_eq _ _ _ Hlt)).
    + by specialize (Hall i _ (list_lookup_insert_eq _ _ _ Hlt)).
Qed.

Lemma closed2_reachable : reachable_from join_url one_page closed0 closed2.
Proof.
  apply (rtc_l _ _ closed1).
  - apply (step_iteration join_url one_page 0%nat). reflexivity.
  - apply rtc_once. apply (step_iteration join_url one_page 1%nat). reflexivity.
Defined.

Lemma all_tasks_finished_condition_witness :
  (0 < 2)%nat ∧
  reachable_from join_url one_page (run_start "http://x/" 0 1 2) closed2 ∧
  Forall (λ t, t = Finished) (tasks closed2) ∧
  (url_queue (shared closed2) = [] ∨
   max_pages (shared closed2) ≤ Z.of_nat (size (visited_urls (shared closed2)))).
Proof.
  assert (0 < 2)%nat as Hnum by (apply (bool_decide_unpack _); by vm_compute).
  assert (Forall (λ t, t = Finished) (tasks closed2)) as Hall.
  { change (Forall (λ t, t = Finished) [Finished; Finished]).
    repeat constructor. }
  split_and!; [exact Hnum|exact closed2_reachable|exact Hall|].
  exact (all_tasks_finished_condition join_url one_page "http://x/" 0 1 2 closed2
           Hnum closed2_reachable Hall).
Defined.
